(** * Chronos attendance: geofence evaluation and shift reconstruction

    A shallow embedding of the two computations of the attendance front end
    ([getDistance] with the geolocation callbacks of [ClockView], and
    [calculateShifts] of [AdminView]) together with the properties the
    design document states about them. *)

From Stdlib Require Import ZArith QArith Qround Qabs Qpower Reals Lra Lia Psatz.
From Stdlib Require Floats.
From stdpp Require Import gmap strings list sorting pretty.

Local Open Scope Z_scope.

(** ** JavaScript numbers

    Two readings are used.  The geofence calls [Math.sin], [Math.cos],
    [Math.sqrt] and [Math.atan2], whose results the language leaves to the
    implementation up to an approximation; there a [number] is an exact
    real or [NaN], and only statements that do not depend on rounding are
    made (which status a callback sets, symmetry).  The durations of
    [calculateShifts] use a subtraction, a division and a comparison,
    which binary64 fixes to the bit; there a [double] is the rational
    value of a binary64 number or [DNaN].  The infinities are outside both
    readings: no operation below reaches them from time values. *)

Inductive number :=
| NaN
| Num (r : R).

Inductive double :=
| DNaN
| DNum (q : Q).

(** *** Rounding to binary64

    [round64 q] is the binary64 number nearest to [q], ties to the even
    significand; the exponent is unbounded (no overflow, no subnormals).
    A positive [q] lies in the binade [2^52 * 2^e <= q < 2^53 * 2^e] of
    exponent [e := binade q], where the representable numbers are the
    integer multiples of [2^e]. *)
Section Binary64.
Local Open Scope Q_scope.

Definition roundEven (t : Q) : Z :=
  let m := Qfloor t in
  match Qcompare (t - inject_Z m) (1 # 2) with
  | Lt => m
  | Gt => (m + 1)%Z
  | Eq => if Z.even m then m else (m + 1)%Z
  end.

Definition binade (q : Q) : Z :=
  let k := (Z.log2 (Qnum q) - Z.log2 (Zpos (Qden q)))%Z in
  if Qlt_le_dec q (2 ^ 52 * 2 ^ (k - 52)) then (k - 53)%Z else (k - 52)%Z.

Definition roundPos (q : Q) : Q :=
  let e := binade q in
  inject_Z (roundEven (q * 2 ^ (- e))) * 2 ^ e.

Definition round64 (q : Q) : Q :=
  match Qnum q with
  | Z0 => 0
  | Zpos _ => roundPos q
  | Zneg _ => - roundPos (- q)
  end.
End Binary64.

(** The same quotient in the binary64 arithmetic of the kernel, which is
    the processor's: [hours64 tin tout] is [(tout - tin) / 3600000] on
    floats, for time values below 2^53, and [valueOf] the rational value
    of a finite float.  [round64] is tried against it further down. *)
Module Kernel64.
Import Floats.

Definition valueOf (f : float) : Q :=
  match Prim2SF f with
  | S754_finite s m e =>
      ((if s then -1 else 1) * inject_Z (Zpos m) * 2 ^ e)%Q
  | _ => 0%Q
  end.

Definition ofZ (z : Z) : float := PrimFloat.of_uint63 (Uint63.of_Z z).

Definition hours64 (tin tout : Z) : float :=
  ((ofZ tout - ofZ tin) / ofZ 3600000)%float.

Definition gt8 (f : float) : bool := PrimFloat.ltb 8%float f.
End Kernel64.

Definition Qgtb (x y : Q) : bool := negb (Qle_bool x y).

(** [x > y] on doubles: [false] as soon as one side is [NaN]. *)
Definition double_gt (x y : double) : bool :=
  match x, y with
  | DNum a, DNum b => Qgtb a b
  | _, _ => false
  end.

(** *** [Number.prototype.toFixed]

    For a magnitude [a] below [10^21] the digits are those of the integer
    [n] for which [n / 10^f] is nearest to [a], the larger [n] of two,
    with the point put [f] digits from the right.  From [10^21] on the
    result is that of [Number::toString]: the shortest decimal that reads
    back as the same double, in exponent notation. *)
Fixpoint zeros (k : nat) : string :=
  match k with
  | O => ""
  | S k' => "0" +:+ zeros k'
  end.

Definition padLeft (n : nat) (s : string) : string :=
  zeros (n - String.length s) +:+ s.

Definition fixedDigits (a : Q) (f : nat) : Z :=
  Qfloor (a * inject_Z (10 ^ Z.of_nat f) + (1 # 2))%Q.

Definition fixedString (n : Z) (f : nat) : string :=
  match f with
  | O => pretty n
  | _ =>
      let m := padLeft (f + 1) (pretty n) in
      let k := String.length m in
      String.substring 0 (k - f) m +:+ "." +:+ String.substring (k - f) f m
  end.

Fixpoint stripZeros (n : Z) (fuel : nat) : Z :=
  match fuel with
  | O => n
  | S fuel' =>
      if decide (n mod 10 = 0 ∧ n ≠ 0) then stripZeros (n / 10) fuel' else n
  end.

(** The two multiples of [scale] around [N], the nearer one first. *)
Definition nearest (N scale : Z) : list Z :=
  let lo := N / scale * scale in
  let hi := lo + scale in
  if decide (N - lo ≤ hi - N) then [lo; hi] else [hi; lo].

(** The integer with the fewest significant digits that rounds to the
    double [x], whose value is the integer [N]. *)
Fixpoint shortest (x : Q) (N : Z) (scale : Z) (fuel : nat) : Z :=
  match fuel with
  | O => N
  | S fuel' =>
      match filter (λ v, Qeq_bool (round64 (inject_Z v)) x = true)
              (nearest N scale) with
      | v :: _ => v
      | [] => shortest x N (scale / 10) fuel'
      end
  end.

Definition exponentString (v : Z) : string :=
  let digits := pretty v in
  let s := pretty (stripZeros v (String.length digits)) in
  match s with
  | String d EmptyString => s
  | String d rest => String d ("." +:+ rest)
  | EmptyString => s
  end +:+ "e+" +:+ pretty (String.length digits - 1)%nat.

Definition largeToString (a : Q) : string :=
  let N := Qfloor a in
  let n := String.length (pretty N) in
  exponentString (shortest a N (10 ^ Z.of_nat (n - 1)) n).

Definition toFixed (x : double) (fractionDigits : nat) : string :=
  match x with
  | DNaN => "NaN"
  | DNum q =>
      let s := if Qlt_le_dec q 0 then "-" else "" in
      let a := Qabs q in
      if Qlt_le_dec a (inject_Z (10 ^ 21)) then
        s +:+ fixedString (fixedDigits a fractionDigits) fractionDigits
      else s +:+ largeToString a
  end.

(** ** Data model *)

Inductive LogType := IN | OUT.

(** A coordinate or a path the server holds as [NULL] is read as [NaN],
    respectively as the empty string: like [null] they are not truthy. *)
Record AttendanceLog := {
  id : Z;
  employee_id : string;
  employee_name : string;
  timestamp : string;
  type : LogType;
  latitude : number;
  longitude : number;
  photo_path : string;
  gps_status : string
}.

(** A derived shift, as pushed by [calculateShifts]: every field except
    [isOvertime] is display text. *)
Record Shift := {
  employee : string;
  date : string;
  in_ : string;
  out : string;
  hours : string;
  isOvertime : bool
}.

(** ** The host's dates

    [getTime ts] is [new Date(ts).getTime()] for the valid timestamps the
    event store supplies: a whole number of milliseconds, of magnitude at
    most 8.64e15 in every host and so an exact double.  The other two are
    the locale renderings [calculateShifts] calls. *)
Class Host := {
  getTime : string → Z;
  toLocaleDateString : string → string;
  toLocaleTimeString : string → string
}.

(** ** [Array.prototype.sort]

    The sort of the language is stable: elements that the comparator
    does not separate keep their input order.  [sort cmp] is the stable
    insertion sort for a comparator with numeric result. *)
Section Sort.
Context {A : Type} (cmp : A → A → Z).

Fixpoint insert_sorted (x : A) (l : list A) : list A :=
  match l with
  | [] => [x]
  | y :: l' => if decide (cmp x y ≤ 0) then x :: l else y :: insert_sorted x l'
  end.

Definition sort (l : list A) : list A := foldr insert_sorted [] l.
End Sort.

(** Ascending order of a numeric key. *)
Definition le_on {A : Type} (key : A → Z) (a b : A) : Prop := key a ≤ key b.

(** ** The record [lastIn]

    [lastIn] is the object literal [{}], read and written under employee
    identifiers.  Such an object has the properties it was given (its
    own) and those of its prototype chain; the key ["__proto__"] names
    the prototype itself: assigning an event under it makes the event the
    prototype, reading it returns the prototype, and [delete] finds no own
    property to remove.  [own] holds the own properties and [proto] the
    event installed as prototype, if any; without one the prototype is
    [Object.prototype]. *)
Record LastIn := {
  own : gmap string AttendanceLog;
  proto : option AttendanceLog
}.

Definition emptyIn : LastIn := {| own := ∅; proto := None |}.

(** What [lastIn[key]] evaluates to when it is truthy: an event, or a
    value that is not an event (a function or the prototype object
    inherited from [Object.prototype], a field of the event installed as
    prototype). *)
Inductive InValue :=
| Event (log : AttendanceLog)
| NotEvent.

(** The properties of [Object.prototype]. *)
Definition objectPrototypeKeys : list string :=
  ["constructor"; "__defineGetter__"; "__defineSetter__"; "hasOwnProperty";
   "__lookupGetter__"; "__lookupSetter__"; "isPrototypeOf";
   "propertyIsEnumerable"; "toString"; "valueOf"; "__proto__";
   "toLocaleString"].

Definition truthyString (s : string) : bool := bool_decide (s ≠ "").

Definition truthyNumber (x : number) : bool :=
  match x with
  | Num r => if Req_dec_T r 0 then false else true
  | NaN => false
  end.

(** The own properties of an event object: whether the property named
    [key] is truthy, [None] when the event has no such property. *)
Definition eventField (p : AttendanceLog) (key : string) : option bool :=
  if decide (key = "id") then Some (bool_decide (id p ≠ 0))
  else if decide (key = "employee_id") then Some (truthyString (employee_id p))
  else if decide (key = "employee_name") then Some (truthyString (employee_name p))
  else if decide (key = "timestamp") then Some (truthyString (timestamp p))
  else if decide (key = "type") then Some true
  else if decide (key = "latitude") then Some (truthyNumber (latitude p))
  else if decide (key = "longitude") then Some (truthyNumber (longitude p))
  else if decide (key = "photo_path") then Some (truthyString (photo_path p))
  else if decide (key = "gps_status") then Some (truthyString (gps_status p))
  else None.

(** Whether a key that is not an own property finds a truthy value up
    the prototype chain: in the event installed as prototype, if there is
    one and it has the property, and in [Object.prototype] otherwise. *)
Definition inheritedTruthy (pr : option AttendanceLog) (key : string) : bool :=
  match pr ≫= (λ p, eventField p key) with
  | Some truthy => truthy
  | None => bool_decide (key ∈ objectPrototypeKeys)
  end.

(** [lastIn[key]]: [None] when the value is not truthy. *)
Definition lookupIn (l : LastIn) (key : string) : option InValue :=
  if decide (key = "__proto__") then
    Some (match proto l with Some p => Event p | None => NotEvent end)
  else
    match own l !! key with
    | Some inLog => Some (Event inLog)
    | None => if inheritedTruthy (proto l) key then Some NotEvent else None
    end.

(** [lastIn[key] = log] *)
Definition assignIn (l : LastIn) (key : string) (log : AttendanceLog) : LastIn :=
  if decide (key = "__proto__") then {| own := own l; proto := Some log |}
  else {| own := <[key := log]> (own l); proto := proto l |}.

(** [delete lastIn[key]] *)
Definition deleteIn (l : LastIn) (key : string) : LastIn :=
  {| own := delete key (own l); proto := proto l |}.

(** The event held for an employee, to be paired with the next OUT. *)
Definition pendingIn (l : LastIn) (key : string) : option AttendanceLog :=
  if decide (key = "__proto__") then proto l else own l !! key.

(** ** Shift reconstruction *)
Section Reconstruction.
Context `{Host}.

(** The instant of an event, in milliseconds. *)
Definition timeOf (log : AttendanceLog) : Z := getTime (timestamp log).

(** The comparator of [calculateShifts]. *)
Definition byTimestamp (a b : AttendanceLog) : Z :=
  getTime (timestamp a) - getTime (timestamp b).

Definition sortedLogs (logs : list AttendanceLog) : list AttendanceLog :=
  sort byTimestamp logs.

(** [new Date(log.timestamp).getTime() - new Date(inLog.timestamp).getTime()].
    A value that is not an event has no [timestamp], and the date of
    [undefined] is invalid: its time is [NaN]. *)
Definition durationMs (inLog : InValue) (log : AttendanceLog) : double :=
  match inLog with
  | Event e => DNum (round64 (inject_Z (timeOf log) - inject_Z (timeOf e)))
  | NotEvent => DNaN
  end.

(** [durationMs / (1000 * 60 * 60)] *)
Definition hoursOf (inLog : InValue) (log : AttendanceLog) : double :=
  match durationMs inLog log with
  | DNum d => DNum (round64 (d / inject_Z (1000 * 60 * 60)))
  | DNaN => DNaN
  end.

(** [new Date(inLog.timestamp).toLocaleDateString()] and
    [toLocaleTimeString()]: an invalid date renders as ["Invalid Date"]. *)
Definition dateOfIn (inLog : InValue) : string :=
  match inLog with
  | Event e => toLocaleDateString (timestamp e)
  | NotEvent => "Invalid Date"
  end.

Definition timeOfIn (inLog : InValue) : string :=
  match inLog with
  | Event e => toLocaleTimeString (timestamp e)
  | NotEvent => "Invalid Date"
  end.

(** The object literal pushed onto [shifts]. *)
Definition mkShift (inLog : InValue) (log : AttendanceLog) : Shift :=
  {| employee := employee_name log;
     date := dateOfIn inLog;
     in_ := timeOfIn inLog;
     out := toLocaleTimeString (timestamp log);
     hours := toFixed (hoursOf inLog log) 2;
     isOvertime := double_gt (hoursOf inLog log) (DNum 8) |}.

(** The body of the [forEach]: the state is the [shifts] array built so
    far and the [lastIn] record.  [emit] builds the element pushed for an
    OUT event and the value found for it. *)
Definition scanLog {S : Type} (emit : InValue → AttendanceLog → S)
    (st : list S * LastIn) (log : AttendanceLog) : list S * LastIn :=
  let '(shifts, lastIn) := st in
  match type log with
  | IN => (shifts, assignIn lastIn (employee_id log) log)
  | OUT =>
      match lookupIn lastIn (employee_id log) with
      | Some inLog =>
          (shifts ++ [emit inLog log], deleteIn lastIn (employee_id log))
      | None => (shifts, lastIn)
      end
  end.

Definition scanLogs {S : Type} (emit : InValue → AttendanceLog → S)
    (logs : list AttendanceLog) (st : list S * LastIn) :=
  fold_left (scanLog emit) logs st.

Definition reconstruct {S : Type} (emit : InValue → AttendanceLog → S)
    (logs : list AttendanceLog) : list S :=
  reverse (scanLogs emit (sortedLogs logs) ([], emptyIn)).1.

Definition calculateShifts (logs : list AttendanceLog) : list Shift :=
  reconstruct mkShift logs.

(** The same scan, keeping for every shift the value found in [lastIn]
    and the OUT event instead of their rendering. *)
Definition shiftPairs (logs : list AttendanceLog)
    : list (InValue * AttendanceLog) :=
  reconstruct pair logs.

(** *** The invariant of the scan

    [rest] is the part of the sorted array not yet visited.  Every event
    held in [lastIn] is an IN filed under its own employee, every pair
    emitted ends with an OUT and, when it begins with an event, joins an
    IN and a later OUT of one employee; the pairs are in the order of
    their OUT events, and nothing visited is later than anything still to
    come. *)
Definition before (rest : list AttendanceLog) (log : AttendanceLog) : Prop :=
  Forall (λ y, timeOf log ≤ timeOf y) rest.

Definition pairOk (p : InValue * AttendanceLog) : Prop :=
  type p.2 = OUT
  ∧ match p.1 with
    | Event e =>
        employee_id e = employee_id p.2 ∧ type e = IN ∧ timeOf e ≤ timeOf p.2
    | NotEvent => True
    end.

Record scanInv (rest : list AttendanceLog)
    (st : list (InValue * AttendanceLog) * LastIn) : Prop := {
  inv_pending : ∀ k v,
    pendingIn st.2 k = Some v → employee_id v = k ∧ type v = IN ∧ before rest v;
  inv_pairs : Forall pairOk st.1;
  inv_out : Forall (λ p, before rest p.2) st.1;
  inv_sorted : StronglySorted (le_on (λ p, timeOf p.2)) st.1
}.
End Reconstruction.

(** ** Orders on the output

    The output is described through the events of its shifts:
    [byInDescending] is reverse-chronological order of the IN events
    (it asks nothing of a shift that has none), [byOutDescending] of the
    OUT events. *)
Definition byInDescending `{Host} (ps : list (InValue * AttendanceLog)) : Prop :=
  StronglySorted
    (λ p q, match p.1, q.1 with
            | Event a, Event b => timeOf b ≤ timeOf a
            | _, _ => True
            end) ps.

Definition byOutDescending `{Host} (ps : list (InValue * AttendanceLog)) : Prop :=
  StronglySorted (λ p q, timeOf q.2 ≤ timeOf p.2) ps.

(** Employee identifiers that name no property of [Object.prototype]. *)
Definition plainIds (logs : list AttendanceLog) : Prop :=
  Forall (λ log, employee_id log ∉ objectPrototypeKeys) logs.

(** ** Geofence *)
Section Geofence.
Local Open Scope R_scope.

(** [Math.atan2 y x] on the reals. *)
Definition atan2 (y x : R) : R :=
  if Rlt_dec 0 x then atan (y / x)
  else if Rlt_dec x 0 then
    if Rle_dec 0 y then atan (y / x) + PI else atan (y / x) - PI
  else
    if Rlt_dec 0 y then PI / 2
    else if Rlt_dec y 0 then - (PI / 2)
    else 0.

(** The arithmetic of [getDistance] read on the reals, statement by
    statement: what the binary64 computation approximates.  In binary64
    the term [a] can exceed 1 by rounding, and the result is then [NaN];
    a distance within rounding of the radius can fall on either side of
    it.  No statement below depends on either. *)
Definition getDistanceR (lat1 lon1 lat2 lon2 : R) : R :=
  let R := 6371e3 in
  let φ1 := lat1 * PI / 180 in
  let φ2 := lat2 * PI / 180 in
  let Δφ := (lat2 - lat1) * PI / 180 in
  let Δλ := (lon2 - lon1) * PI / 180 in
  let a := sin (Δφ / 2) * sin (Δφ / 2) +
           cos φ1 * cos φ2 *
           sin (Δλ / 2) * sin (Δλ / 2) in
  let c := 2 * atan2 (sqrt a) (sqrt (1 - a)) in
  R * c.

(** Every operation of [getDistance] yields [NaN] on a [NaN] operand. *)
Definition getDistance (lat1 lon1 lat2 lon2 : number) : number :=
  match lat1, lon1, lat2, lon2 with
  | Num a, Num b, Num c, Num d => Num (getDistanceR a b c d)
  | _, _, _, _ => NaN
  end.

(** [x <= y] on numbers: [false] as soon as one side is [NaN]. *)
Definition number_le (x y : number) : bool :=
  match x, y with
  | Num a, Num b => if Rle_dec a b then true else false
  | _, _ => false
  end.

Record Coords := { lat : number; lng : number }.

(** The constants as written; the program holds the nearest doubles. *)
Definition OFFICE_COORDS : Coords := {| lat := Num 51.5074; lng := Num (-0.1278) |}.
Definition GEOFENCE_RADIUS : number := Num 200.

(** The three values of the [gpsStatus] state of [ClockView]:
    ['OK'], ['Out of Range'] and ['Searching']. *)
Inductive GpsStatus := OK | OutOfRange | Searching.

(** The part of the state of [ClockView] that the geolocation request
    writes. *)
Record ClockState := {
  location : option Coords;
  gpsStatus : GpsStatus
}.

(** The state at mount: [useState(null)] and [useState('Searching')]. *)
Definition initialClockState : ClockState :=
  {| location := None; gpsStatus := Searching |}.

(** The two callbacks handed to [getCurrentPosition]. *)
Definition onPosition (coords : Coords) (st : ClockState) : ClockState :=
  let dist := getDistance (lat coords) (lng coords)
                (lat OFFICE_COORDS) (lng OFFICE_COORDS) in
  {| location := Some coords;
     gpsStatus := if number_le dist GEOFENCE_RADIUS then OK else OutOfRange |}.

Definition onPositionError (st : ClockState) : ClockState :=
  {| location := location st; gpsStatus := OutOfRange |}.

(** What the geolocation service reports. *)
Inductive GeoEvent :=
| Position (coords : Coords)
| PositionError.

Definition geoStep (st : ClockState) (ev : GeoEvent) : ClockState :=
  match ev with
  | Position coords => onPosition coords st
  | PositionError => onPositionError st
  end.

Definition geoRun (evs : list GeoEvent) : ClockState :=
  fold_left geoStep evs initialClockState.

(** *** The distance as the design document words it

    The haversine formula on a sphere of radius 6 371 000 metres. *)
Definition radians (deg : R) : R := deg * PI / 180.

Definition hav (θ : R) : R := (sin (θ / 2))².

Definition earthRadius : R := 6371000.

Definition haversineDistance (lat1 lon1 lat2 lon2 : R) : R :=
  2 * earthRadius
  * asin (sqrt (hav (radians lat2 - radians lat1)
                + cos (radians lat1) * cos (radians lat2)
                  * hav (radians lon2 - radians lon1))).
End Geofence.

(** ** The store

    Arrays, records and event objects of the running program are shared
    objects reached through references.  [calculateShiftsOn] is
    [calculateShifts] with every allocation, read and in-place update
    written out; a computation returns [None] where the program would
    throw. *)
Abbreviation ref := positive.

(** A record is an object used as a map, as [lastIn] is: its own
    properties, and the event object that was made its prototype, if
    any. *)
Inductive Obj :=
| ObjLog (log : AttendanceLog)
| ObjShift (s : Shift)
| ObjArray (elems : list ref)
| ObjRecord (fields : gmap string ref) (prototype : option ref).

Definition M (A : Type) : Type := gmap ref Obj → option (A * gmap ref Obj).

Definition ret {A} (x : A) : M A := λ h, Some (x, h).

Definition bind {A B} (m : M A) (f : A → M B) : M B :=
  λ h, match m h with
       | Some (x, h') => f x h'
       | None => None
       end.

Notation "'do' x <- m ; k" := (bind m (λ x, k))
  (at level 10, x name, m at level 100, k at level 200).
Notation "'do' '_' <- m ; k" := (bind m (λ _, k))
  (at level 10, m at level 100, k at level 200).

(** A new object gets a reference that no object of the store has. *)
Definition alloc (o : Obj) : M ref :=
  λ h, let r := fresh (dom h) in Some (r, <[r := o]> h).

Definition getLog (r : ref) : M AttendanceLog :=
  λ h, match h !! r with Some (ObjLog log) => Some (log, h) | _ => None end.

Definition getShift (r : ref) : M Shift :=
  λ h, match h !! r with Some (ObjShift s) => Some (s, h) | _ => None end.

Definition getArray (r : ref) : M (list ref) :=
  λ h, match h !! r with Some (ObjArray elems) => Some (elems, h) | _ => None end.

Definition getRecord (r : ref) : M (gmap string ref * option ref) :=
  λ h, match h !! r with
       | Some (ObjRecord fields prototype) => Some ((fields, prototype), h)
       | _ => None
       end.

Definition setArray (r : ref) (elems : list ref) : M unit :=
  λ h, Some (tt, <[r := ObjArray elems]> h).

Definition setRecord (r : ref) (fields : gmap string ref)
    (prototype : option ref) : M unit :=
  λ h, Some (tt, <[r := ObjRecord fields prototype]> h).

Fixpoint mapM {A B} (f : A → M B) (l : list A) : M (list B) :=
  match l with
  | [] => ret []
  | x :: l' => do y <- f x; do ys <- mapM f l'; ret (y :: ys)
  end.

Fixpoint forEach {A} (f : A → M unit) (l : list A) : M unit :=
  match l with
  | [] => ret tt
  | x :: l' => do _ <- f x; forEach f l'
  end.

Section StoreReconstruction.
Context `{Host}.

(** [arr.sort((a, b) => new Date(a.timestamp).getTime()
                     - new Date(b.timestamp).getTime())]:
    the array object [arr] is reordered in place; the comparator reads
    the events its elements refer to. *)
Definition sortInPlace (arr : ref) : M unit :=
  do elems <- getArray arr;
  do logs <- mapM getLog elems;
  setArray arr (sort (λ a b, byTimestamp a.2 b.2) (zip elems logs)).*1.

(** What [lastIn[key]] finds on the store: a reference to an event, or
    a value that is not an event. *)
Inductive InRef :=
| EventRef (r : ref)
| NotEventRef.

(** [lastIn[key]], [None] when the value is not truthy.  A key that is
    not an own property is looked up in the event that is the prototype,
    which is read, and then in [Object.prototype]. *)
Definition readIn (lastIn : ref) (key : string) : M (option InRef) :=
  do record <- getRecord lastIn;
  if decide (key = "__proto__") then
    ret (Some (match record.2 with Some p => EventRef p | None => NotEventRef end))
  else
    match record.1 !! key with
    | Some r => ret (Some (EventRef r))
    | None =>
        do pr <- match record.2 with
                 | Some p => do e <- getLog p; ret (Some e)
                 | None => ret None
                 end;
        ret (if inheritedTruthy pr key then Some NotEventRef else None)
    end.

(** [lastIn[key] = log], for the event at [r]. *)
Definition writeIn (lastIn : ref) (key : string) (r : ref) : M unit :=
  do record <- getRecord lastIn;
  if decide (key = "__proto__") then setRecord lastIn record.1 (Some r)
  else setRecord lastIn (<[key := r]> record.1) record.2.

(** [delete lastIn[key]] *)
Definition deleteKey (lastIn : ref) (key : string) : M unit :=
  do record <- getRecord lastIn;
  setRecord lastIn (delete key record.1) record.2.

(** The value found, read for [mkShift]. *)
Definition readInValue (v : InRef) : M InValue :=
  match v with
  | EventRef r => do e <- getLog r; ret (Event e)
  | NotEventRef => ret NotEvent
  end.

(** The body of the [forEach] on the store. *)
Definition scanRef (shifts lastIn : ref) (r : ref) : M unit :=
  do log <- getLog r;
  match type log with
  | IN => writeIn lastIn (employee_id log) r
  | OUT =>
      do found <- readIn lastIn (employee_id log);
      match found with
      | Some v =>
          do inLog <- readInValue v;
          do s <- alloc (ObjShift (mkShift inLog log));
          do pushed <- getArray shifts;
          do _ <- setArray shifts (pushed ++ [s]);
          deleteKey lastIn (employee_id log)
      | None => ret tt
      end
  end.

Definition calculateShiftsOn (logs : ref) : M ref :=
  do shifts <- alloc (ObjArray []);
  do elems <- getArray logs;
  do sortedLogs <- alloc (ObjArray elems);
  do _ <- sortInPlace sortedLogs;
  do lastIn <- alloc (ObjRecord ∅ None);
  do sorted <- getArray sortedLogs;
  do _ <- forEach (scanRef shifts lastIn) sorted;
  do pushed <- getArray shifts;
  do _ <- setArray shifts (reverse pushed);
  ret shifts.

(** Reading an array of shifts out of the store. *)
Definition readShifts (r : ref) : M (list Shift) :=
  do elems <- getArray r;
  mapM getShift elems.
End StoreReconstruction.

(** The events [ls] are the objects at [elems], in this order. *)
Definition holdsLogs (h : gmap ref Obj) (elems : list ref) (ls : list AttendanceLog) : Prop :=
  Forall2 (λ r log, h !! r = Some (ObjLog log)) elems ls.

(** *** The invariant of the scan on the store

    [h0] is the store before the call, [h] the store during the scan and
    [st] the state of the scan of [calculateShifts]: [h] extends [h0]
    without changing any of its objects, the two working objects are not
    objects of [h0], the array at [shifts] lists the shifts of [st], and
    the record at [lastIn] holds, as own properties and as prototype,
    references to the events [st] holds. *)
Record storeInv `{Host} (h0 : gmap ref Obj) (shifts lastIn : ref)
    (h : gmap ref Obj) (st : list Shift * LastIn) : Prop := {
  si_frame : h0 ⊆ h;
  si_shifts_new : h0 !! shifts = None;
  si_lastIn_new : h0 !! lastIn = None;
  si_shifts : ∃ pushed,
    h !! shifts = Some (ObjArray pushed)
    ∧ Forall2 (λ r s, h !! r = Some (ObjShift s)) pushed st.1;
  si_lastIn : ∃ fields prototype,
    h !! lastIn = Some (ObjRecord fields prototype)
    ∧ (∀ k, match fields !! k with
            | Some r => ∃ log, h0 !! r = Some (ObjLog log)
                               ∧ own st.2 !! k = Some log
            | None => own st.2 !! k = None
            end)
    ∧ match prototype with
      | Some r => ∃ log, h0 !! r = Some (ObjLog log) ∧ proto st.2 = Some log
      | None => proto st.2 = None
      end
}.

(** ** A host for the examples

    Timestamps have SQLite's [CURRENT_TIMESTAMP] shape,
    [YYYY-MM-DD HH:MM:SS], and are read in a host whose time zone is UTC;
    dates and times are rendered as the matching parts of the timestamp. *)
Module ExampleHost.
Definition digitAt (s : string) (i : nat) : Z :=
  match String.get i s with
  | Some c => Z.of_N (Ascii.N_of_ascii c) - 48
  | None => 0
  end.

Fixpoint fieldAt (s : string) (i len : nat) (acc : Z) : Z :=
  match len with
  | O => acc
  | S len' => fieldAt s (S i) len' (10 * acc + digitAt s i)
  end.

(** Days from 1970-01-01 to the given civil date. *)
Definition daysFromCivil (y m d : Z) : Z :=
  let y' := if decide (m ≤ 2) then y - 1 else y in
  let era := y' / 400 in
  let yoe := y' - era * 400 in
  let doy := (153 * (if decide (m ≤ 2) then m + 9 else m - 3) + 2) / 5 + d - 1 in
  let doe := yoe * 365 + yoe / 4 - yoe / 100 + doy in
  era * 146097 + doe - 719468.

Definition utcTime (s : string) : Z :=
  let days := daysFromCivil (fieldAt s 0 4 0) (fieldAt s 5 2 0) (fieldAt s 8 2 0) in
  (((days * 24 + fieldAt s 11 2 0) * 60 + fieldAt s 14 2 0) * 60
     + fieldAt s 17 2 0) * 1000.

#[export] Instance host : Host := {|
  getTime := utcTime;
  toLocaleDateString := fun s => String.substring 0 10 s;
  toLocaleTimeString := fun s => String.substring 11 8 s
|}.

(** An event of the given kind for employee [e], stamped [ts]. *)
Definition event (n : Z) (e : string) (k : LogType) (ts : string) : AttendanceLog :=
  {| id := n; employee_id := e; employee_name := "Employee " +:+ e;
     timestamp := ts; type := k;
     latitude := Num 51.5074; longitude := Num (-0.1278);
     photo_path := ""; gps_status := "OK" |}.
End ExampleHost.

(** ** Example inputs *)
Module Examples.
Import ExampleHost.

Definition in0900 := event 1 "E1" IN "2024-03-04 09:00:00".
Definition in1000 := event 2 "E1" IN "2024-03-04 10:00:00".
Definition out1700 := event 3 "E1" OUT "2024-03-04 17:00:00".
Definition out1830 := event 4 "E1" OUT "2024-03-04 18:30:00".
Definition out0900 := event 5 "E1" OUT "2024-03-04 09:00:00".
Definition in1000_E2 := event 6 "E2" IN "2024-03-04 10:00:00".
Definition out1100_E2 := event 7 "E2" OUT "2024-03-04 11:00:00".
Definition out170001 := event 10 "E1" OUT "2024-03-04 17:00:01".
Definition out100018 := event 16 "E1" OUT "2024-03-04 10:00:18".

(** Events of employees whose identifiers name properties every object
    inherits, or a field of an event. *)
Definition out0900_constructor :=
  event 11 "constructor" OUT "2024-03-04 09:00:00".
Definition in0900_proto := event 12 "__proto__" IN "2024-03-04 09:00:00".
Definition out1000_proto := event 13 "__proto__" OUT "2024-03-04 10:00:00".
Definition out1100_proto := event 14 "__proto__" OUT "2024-03-04 11:00:00".
Definition out1000_type := event 15 "type" OUT "2024-03-04 10:00:00".

(** One working day of exactly eight hours. *)
Definition logs_eight := [in0900; out1700].
(** The same day in the order the server sends it, newest first. *)
Definition logs_eight_desc := [out1700; in0900].
(** A missed clock-out: two INs before the OUT. *)
Definition logs_double_in := [in0900; in1000; out1700].
(** The same events as the server sends them, newest first. *)
Definition logs_double_in_desc := [out1700; in1000; in0900].
(** Eight hours and one second. *)
Definition logs_eight_and_a_second := [in0900; out170001].
(** A tie followed by a later event, and the same three events with the
    later one first. *)
Definition logs_tie_then_out := [in0900; out0900; out1700].
Definition logs_out_then_tie := [out1700; in0900; out0900].
(** An OUT with nothing before it. *)
Definition logs_orphan := [out0900].
(** E2 clocks in after E1 and leaves before E1 does. *)
Definition logs_nested := [in0900; in1000_E2; out1100_E2; out1700].
(** An IN and an OUT of one employee within the same second, in the two
    possible input orders. *)
Definition logs_tie := [in0900; out0900].
Definition logs_tie_swapped := [out0900; in0900].

(** A store holding the day of [logs_eight_desc] as the array at
    reference 1, its two events at references 2 and 3. *)
Definition store_eight : gmap ref Obj :=
  {[ 1 := ObjArray [2; 3]; 2 := ObjLog out1700; 3 := ObjLog in0900 ]}%positive.
End Examples.


(** ** The clock request of [ClockView]

    [handleClock] posts one body per press, unless the camera failed. *)
Module ClockRequest.
Record t := {
  employeeId : string;
  type : LogType;
  latitude : option number;
  longitude : option number;
  photo : option string;
  gpsStatus : GpsStatus
}.
End ClockRequest.

(** The [User] of the front end. *)
Module User.
Record t := {
  id : string;
  name : string;
  isAdmin : bool
}.
End User.

(** The body [handleClock] hands to [fetch], if the call gets that far:
    it returns at once when [cameraError] is set (a truthy string), and it
    ends before [fetch] when drawing the video frame throws.  [capture] is
    what the capture came to: [None] when it threw, otherwise the photo,
    which stays [null] without a video or a canvas.  [location?.lat] is
    [undefined] while no location is held. *)
Definition clockBody (cameraError : option string) (user : User.t)
    (st : ClockState) (type : LogType) (capture : option (option string))
    : option ClockRequest.t :=
  if default false (truthyString <$> cameraError) then None
  else
    match capture with
    | None => None
    | Some photoBase64 =>
        Some {| ClockRequest.employeeId := User.id user;
                ClockRequest.type := type;
                ClockRequest.latitude := lat <$> location st;
                ClockRequest.longitude := lng <$> location st;
                ClockRequest.photo := photoBase64;
                ClockRequest.gpsStatus := gpsStatus st |}
    end.

(** ** Further notions for the reconstruction *)
#[global] Instance LogType_eq_dec : EqDecision LogType.
Proof. solve_decision. Defined.

(** The number of events of one kind. *)
Definition countOf (k : LogType) (logs : list AttendanceLog) : nat :=
  length (filter (λ log, type log = k) logs).



(** [shifts.slice(0, 6)]: the shifts shown in the summary of [AdminView]. *)
Definition shownShifts `{Host} (logs : list AttendanceLog) : list Shift :=
  take 6 (calculateShifts logs).

(** Two more events for the examples. *)
Module MoreExamples.
Import ExampleHost.
Definition in1800 := event 8 "E1" IN "2024-03-04 18:00:00".
Definition out1830 := event 9 "E1" OUT "2024-03-04 18:30:00".
End MoreExamples.

(** ** The CSV export *)

(** A value of a column of the query: [NULL], text or a number. *)
Inductive Cell :=
| Null
| Text (s : string)
| Number (x : number).

Module ExportLog.
Record t := {
  timestamp : Cell;
  name : Cell;
  type : Cell;
  gps_status : Cell;
  latitude : Cell;
  longitude : Cell
}.
End ExportLog.

(** The line feed that joins the rows, and the comma that joins the
    values of a row. *)
Definition LF : Ascii.ascii := Ascii.ascii_of_nat 10.
Definition COMMA : Ascii.ascii := Ascii.ascii_of_nat 44.

Section CsvExport.
(** [Number::toString] of the host. *)
Context (numberToString : number → string).

(** What [Array.prototype.join] makes of an element: the empty string of
    [null], the text itself, the host's rendering of a number. *)
Definition cellString (c : Cell) : string :=
  match c with
  | Null => ""
  | Text s => s
  | Number x => numberToString x
  end.

Definition join (sep : string) (cells : list Cell) : string :=
  String.concat sep (cellString <$> cells).

Definition csvHeader : list Cell :=
  [Text "Timestamp"; Text "Employee Name"; Text "Action"; Text "GPS Status";
   Text "Latitude"; Text "Longitude"].

Definition csvCells (log : ExportLog.t) : list Cell :=
  [ExportLog.timestamp log; ExportLog.name log; ExportLog.type log;
   ExportLog.gps_status log; ExportLog.latitude log; ExportLog.longitude log].

Definition csvRows (logs : list ExportLog.t) : list string :=
  join "," csvHeader :: ((λ log, join "," (csvCells log)) <$> logs).

(** The body sent by [app.get("/api/export", ...)]. *)
Definition exportCsv (logs : list ExportLog.t) : string :=
  String.concat (String LF "") (csvRows logs).
End CsvExport.

(** *** Reading a CSV text back *)

(** The number of occurrences of a character. *)
Fixpoint occurs (c : Ascii.ascii) (s : string) : nat :=
  match s with
  | EmptyString => O
  | String a s' => ((if decide (a = c) then 1 else 0) + occurs c s')%nat
  end.

(** The pieces of [s] between the occurrences of [c]. *)
Fixpoint splitOn (c : Ascii.ascii) (s : string) : list string :=
  match s with
  | EmptyString => [""]
  | String a s' =>
      if decide (a = c) then "" :: splitOn c s'
      else match splitOn c s' with
           | piece :: pieces => String a piece :: pieces
           | [] => [String a ""]
           end
  end.

(** Lines, and in each line the fields between commas. *)
Definition parseCsv (s : string) : list (list string) :=
  splitOn COMMA <$> splitOn LF s.

(** The values of a row contain neither a comma nor a line feed. *)
Definition plainRow (numberToString : number → string) (log : ExportLog.t) : Prop :=
  Forall (λ cell, occurs COMMA (cellString numberToString cell) = 0%nat
                  ∧ occurs LF (cellString numberToString cell) = 0%nat)
    (csvCells log).

(** ** The serverless entry point

    [createApp] and [serverless] are the two functions the entry point
    imports; [createApp n] is the application made by the call number [n].
    The state is the module variable [serverlessHandler] together with
    the number of calls of [createApp] made so far. *)
Section Netlify.
Context {Application Handler : Type}.
Context (createApp : nat → Application) (serverless : Application → Handler).

Record Lambda := {
  serverlessHandler : option Handler;
  created : nat
}.

Definition coldStart : Lambda := {| serverlessHandler := None; created := 0 |}.

(** One call of [handler]: the handler that answers the event, and the
    state it leaves. *)
Definition handler (st : Lambda) : Handler * Lambda :=
  match serverlessHandler st with
  | None =>
      let app := createApp (created st) in
      let h := serverless app in
      (h, {| serverlessHandler := Some h; created := S (created st) |})
  | Some h => (h, st)
  end.

(** [n] calls, one after the other. *)
Fixpoint handlerCalls (n : nat) (st : Lambda) : list Handler * Lambda :=
  match n with
  | O => ([], st)
  | S n' =>
      let '(h, st') := handler st in
      let '(hs, st'') := handlerCalls n' st' in
      (h :: hs, st'')
  end.
End Netlify.

(** ** Further example inputs *)

(** A row of the export for a clock-in without coordinates. *)
Definition exportRow : ExportLog.t :=
  {| ExportLog.timestamp := Text "2024-03-04 09:00:00";
     ExportLog.name := Text "John Doe";
     ExportLog.type := Text "IN";
     ExportLog.gps_status := Text "OK";
     ExportLog.latitude := Null;
     ExportLog.longitude := Null |}.
(** * Properties of the rounding *)
Section RoundingFacts.
Local Open Scope Q_scope.

Lemma pow2_pos (e : Z) : 0 < 2 ^ e.
Proof. apply Qpower_0_lt. reflexivity. Qed.

Lemma pow2_succ (e : Z) : 2 ^ (e + 1) == 2 * 2 ^ e.
Proof. rewrite Qpower_plus by discriminate. simpl. lra. Qed.

Lemma pow2_inv (e : Z) : 2 ^ e * 2 ^ (- e) == 1.
Proof.
  rewrite <- Qpower_plus by discriminate.
  replace (e + - e)%Z with 0%Z by lia. reflexivity.
Qed.

Lemma pow2_log2 (a : Z) :
  (0 < a)%Z → 2 ^ Z.log2 a <= inject_Z a ∧ inject_Z a < 2 * 2 ^ Z.log2 a.
Proof.
  intros Ha. destruct (Z.log2_spec a Ha) as [H1 H2].
  pose proof (Z.log2_nonneg a) as Hnn.
  rewrite <- pow2_succ.
  rewrite <- !(Zpower_Qpower 2) by lia.
  rewrite <- Zle_Qle, <- Zlt_Qlt. replace (Z.log2 a + 1)%Z with (Z.succ (Z.log2 a)) by lia.
  done.
Qed.

Lemma binade_spec (q : Q) :
  0 < q → 2 ^ 52 * 2 ^ binade q <= q ∧ q < 2 ^ 53 * 2 ^ binade q.
Proof.
  intros Hq. destruct q as [a b].
  assert (0 < a)%Z as Ha by (unfold Qlt in Hq; simpl in Hq; lia).
  unfold binade. cbn [Qnum Qden].
  set (k := (Z.log2 a - Z.log2 (Z.pos b))%Z).
  destruct (pow2_log2 a Ha) as [HA1 HA2].
  destruct (pow2_log2 (Z.pos b) eq_refl) as [HB1 HB2].
  assert (2 ^ Z.log2 a == 2 ^ 52 * 2 ^ (k - 52) * 2 ^ Z.log2 (Z.pos b)) as HAB.
  { rewrite <- !Qpower_plus by discriminate. unfold k.
    replace (52 + (Z.log2 a - Z.log2 (Z.pos b) - 52) + Z.log2 (Z.pos b))%Z
      with (Z.log2 a) by lia. reflexivity. }
  assert ((a # b) * inject_Z (Z.pos b) == inject_Z a) as Hab.
  { rewrite (Qmake_Qdiv a b). field. discriminate. }
  pose proof (pow2_pos (Z.log2 (Z.pos b))) as HBpos.
  pose proof (pow2_pos (k - 52)) as HPpos.
  assert (2 ^ (k - 53) * 2 == 2 ^ (k - 52)) as Hhalf.
  { replace (k - 52)%Z with (k - 53 + 1)%Z by lia. rewrite pow2_succ. lra. }
  change (2 ^ 52) with (4503599627370496 # 1) in *.
  change (2 ^ 53) with (9007199254740992 # 1) in *.
  destruct (Qlt_le_dec (a # b) ((4503599627370496 # 1) * 2 ^ (k - 52)))
    as [Hlt|Hge];
    generalize dependent (2 ^ Z.log2 a);
    generalize dependent (2 ^ Z.log2 (Z.pos b));
    generalize dependent (2 ^ (k - 52)); generalize dependent (2 ^ (k - 53));
    generalize dependent (inject_Z a); generalize dependent (inject_Z (Z.pos b));
    generalize dependent (a # b);
    intros q Hq ib ia Hab E1 P HP Hhalf Hcmp B HB HB1 HB2 A HA1 HA2 HAB;
    assert ((2251799813685248 # 1) * P * B < q * B) as Hlow by nra;
    assert (q * B < (9007199254740992 # 1) * P * B) as Hhigh by nra;
    assert ((2251799813685248 # 1) * P < q) as Hlow' by nra;
    assert (q < (9007199254740992 # 1) * P) as Hhigh' by nra;
    split; lra.
Qed.

Lemma roundEven_near (t : Q) :
  inject_Z (roundEven t) - t <= 1 # 2 ∧ t - inject_Z (roundEven t) <= 1 # 2.
Proof.
  unfold roundEven.
  pose proof (Qfloor_le t) as Hlo. pose proof (Qlt_floor t) as Hhi.
  rewrite inject_Z_plus in Hhi. change (inject_Z 1) with 1 in Hhi.
  destruct (Qcompare_spec (t - inject_Z (Qfloor t)) (1 # 2)) as [He|Hl|Hg].
  - destruct (Z.even (Qfloor t));
      [|rewrite inject_Z_plus; change (inject_Z 1) with 1]; split; lra.
  - split; lra.
  - rewrite inject_Z_plus. change (inject_Z 1) with 1. split; lra.
Qed.

Lemma roundEven_floor (t : Q) :
  (Qfloor t <= roundEven t <= Qfloor t + 1)%Z.
Proof.
  unfold roundEven.
  destruct (Qcompare _ _); [destruct (Z.even _)|..]; lia.
Qed.

Lemma roundEven_exact (t : Q) (z : Z) : t == inject_Z z → roundEven t = z.
Proof.
  intros Ht. unfold roundEven.
  assert (Qfloor t = z) as ->.
  { rewrite (Qfloor_comp _ _ Ht). apply Qfloor_Z. }
  assert (t - inject_Z z < 1 # 2) as Hl by lra.
  by destruct (Qcompare_spec (t - inject_Z z) (1 # 2)) as [He|_|Hg]; [lra| |lra].
Qed.

Lemma roundEven_ge (t : Q) (z : Z) : inject_Z z <= t → (z <= roundEven t)%Z.
Proof.
  intros Ht. apply Qfloor_resp_le in Ht. rewrite Qfloor_Z in Ht.
  pose proof (roundEven_floor t). lia.
Qed.

Lemma roundEven_le (t : Q) (z : Z) : t <= inject_Z z → (roundEven t <= z)%Z.
Proof.
  intros Ht.
  destruct (Qlt_le_dec t (inject_Z z)) as [Hlt|Hge].
  - assert (Qfloor t < z)%Z.
    { apply Z.lt_nge. intros Hz. rewrite Zle_Qle in Hz.
      pose proof (Qfloor_le t). lra. }
    pose proof (roundEven_floor t). lia.
  - rewrite (roundEven_exact t z); [lia|]. lra.
Qed.

Lemma scaled_bounds (q : Q) :
  0 < q → 2 ^ 52 <= q * 2 ^ (- binade q) ∧ q * 2 ^ (- binade q) <= 2 ^ 53.
Proof.
  intros Hq. destruct (binade_spec q Hq) as [H1 H2].
  pose proof (pow2_inv (binade q)) as Hinv.
  pose proof (pow2_pos (binade q)) as HE. pose proof (pow2_pos (- binade q)) as HE'.
  change (2 ^ 52) with (4503599627370496 # 1) in *.
  change (2 ^ 53) with (9007199254740992 # 1) in *.
  generalize dependent (2 ^ binade q). generalize dependent (2 ^ (- binade q)).
  intros E' HE' E H1 H2 Hinv HE.
  split; nra.
Qed.

Lemma mantissa_bounds (q : Q) :
  0 < q →
  (4503599627370496 <= roundEven (q * 2 ^ (- binade q)) <= 9007199254740992)%Z.
Proof.
  intros Hq. destruct (scaled_bounds q Hq) as [H1 H2]. split.
  - apply roundEven_ge. exact H1.
  - apply roundEven_le. exact H2.
Qed.

Lemma roundPos_pos (q : Q) : 0 < q → 0 < roundPos q.
Proof.
  intros Hq. unfold roundPos.
  pose proof (mantissa_bounds q Hq) as [HM _].
  pose proof (pow2_pos (binade q)) as HE.
  rewrite Zle_Qle in HM.
  generalize dependent (inject_Z (roundEven (q * 2 ^ (- binade q)))).
  generalize dependent (2 ^ binade q). intros E HE M HM.
  change (inject_Z 4503599627370496) with (4503599627370496 # 1) in HM. nra.
Qed.

Lemma round64_pos (q : Q) : 0 < q → round64 q = roundPos q.
Proof.
  destruct q as [[|a|a] b]; intros Hq; try done.
Qed.

Lemma round64_neg (q : Q) : q < 0 → round64 q = - roundPos (- q).
Proof.
  destruct q as [[|a|a] b]; intros Hq; try done.
Qed.

Lemma round64_zero (q : Q) : q == 0 → round64 q = 0.
Proof.
  destruct q as [[|a|a] b]; intros Hq; try done.
Qed.

Lemma round64_nonneg (q : Q) : 0 <= q → 0 <= round64 q.
Proof.
  intros Hq. destruct (Qlt_le_dec 0 q) as [Hlt|Hle].
  - rewrite round64_pos by done. apply Qlt_le_weak, roundPos_pos, Hlt.
  - rewrite round64_zero; [done|]. lra.
Qed.

Lemma round64_nonpos (q : Q) : q <= 0 → round64 q <= 0.
Proof.
  intros Hq. destruct (Qlt_le_dec q 0) as [Hlt|Hle].
  - rewrite round64_neg by done.
    assert (0 < - q) as Hn by lra. apply roundPos_pos in Hn. lra.
  - rewrite round64_zero; [done|]. lra.
Qed.

Lemma pow2_mono (e1 e2 : Z) : (e1 <= e2)%Z → 2 ^ e1 <= 2 ^ e2.
Proof. intros He. apply Qpower_le_compat_l; [done|]. discriminate. Qed.

Lemma round64_le_8 (q : Q) : 0 < q → q <= 8 → round64 q <= 8.
Proof.
  intros Hq Hq8. rewrite round64_pos by done. unfold roundPos.
  destruct (binade_spec q Hq) as [H1 H2].
  destruct (mantissa_bounds q Hq) as [HM1 HM2].
  destruct (scaled_bounds q Hq) as [Ht1 Ht2].
  pose proof (pow2_pos (binade q)) as HE.
  assert (binade q <= -50 ∨ binade q = -49 ∨ -48 <= binade q)%Z
    as [He|[He|He]] by lia.
  - apply pow2_mono in He. rewrite Zle_Qle in HM2.
    change (2 ^ (-50)) with (1 # 1125899906842624) in He.
    change (inject_Z 9007199254740992) with (9007199254740992 # 1) in HM2.
    rewrite Zle_Qle in HM1.
    change (inject_Z 4503599627370496) with (4503599627370496 # 1) in HM1.
    clear H1 H2 Ht1 Ht2.
    set (M := inject_Z (roundEven (q * 2 ^ (- binade q)))) in *.
    set (E := 2 ^ binade q) in *. clearbody M E. nra.
  - rewrite He in *. clear HM1 HM2.
    change (2 ^ 52) with (4503599627370496 # 1) in *.
    change (2 ^ (-49)) with (1 # 562949953421312) in *.
    change (2 ^ (- -49)) with (562949953421312 # 1) in *.
    rewrite (roundEven_exact _ 4503599627370496).
    + done.
    + change (inject_Z 4503599627370496) with (4503599627370496 # 1). lra.
  - apply pow2_mono in He.
    change (2 ^ 52) with (4503599627370496 # 1) in *.
    change (2 ^ (-48)) with (1 # 281474976710656) in *. lra.
Qed.

Lemma round64_gt_8 (q : Q) :
  8 + (1 # 562949953421312) <= q → 8 < round64 q.
Proof.
  intros Hq8. assert (0 < q) as Hq by lra.
  rewrite round64_pos by done. unfold roundPos.
  destruct (binade_spec q Hq) as [H1 H2].
  destruct (mantissa_bounds q Hq) as [HM1 HM2].
  pose proof (pow2_pos (binade q)) as HE.
  assert (binade q <= -50 ∨ binade q = -49 ∨ -48 <= binade q)%Z
    as [He|[He|He]] by lia.
  - apply pow2_mono in He.
    change (2 ^ 53) with (9007199254740992 # 1) in *.
    change (2 ^ (-50)) with (1 # 1125899906842624) in *. lra.
  - rewrite He in *. clear HM1 HM2.
    change (2 ^ (-49)) with (1 # 562949953421312) in *.
    change (2 ^ (- -49)) with (562949953421312 # 1) in *.
    assert (4503599627370497 <= roundEven (q * (562949953421312 # 1)))%Z as HM.
    { apply roundEven_ge.
      change (inject_Z 4503599627370497) with (4503599627370497 # 1). lra. }
    rewrite Zle_Qle in HM.
    change (inject_Z 4503599627370497) with (4503599627370497 # 1) in HM.
    lra.
  - apply pow2_mono in He. rewrite Zle_Qle in HM1.
    change (2 ^ (-48)) with (1 # 281474976710656) in He.
    change (inject_Z 4503599627370496) with (4503599627370496 # 1) in HM1.
    clear H1 H2.
    set (M := inject_Z (roundEven (q * 2 ^ (- binade q)))) in *.
    set (E := 2 ^ binade q) in *. clearbody M E. nra.
Qed.

Lemma round64_integer (q : Q) (z : Z) :
  q == inject_Z z → (0 < z < 9007199254740992)%Z → round64 q == inject_Z z.
Proof.
  intros Hqz [Hz1 Hz2]. rewrite Zlt_Qlt in Hz1, Hz2.
  change (inject_Z 0) with 0 in Hz1.
  change (inject_Z 9007199254740992) with (9007199254740992 # 1) in Hz2.
  assert (0 < q) as Hq by lra.
  rewrite round64_pos by done. unfold roundPos.
  destruct (binade_spec q Hq) as [H1 H2].
  assert (binade q <= 0)%Z as He.
  { apply Z.le_ngt. intros He.
    assert (1 <= binade q)%Z as He' by lia. apply pow2_mono in He'.
    change (2 ^ 52) with (4503599627370496 # 1) in *.
    change (2 ^ 1) with 2 in *. lra. }
  pose proof (pow2_inv (binade q)) as Hinv.
  assert (2 ^ (- binade q) == inject_Z (2 ^ (- binade q))) as HP.
  { rewrite Zpower_Qpower by lia. reflexivity. }
  rewrite (roundEven_exact _ (z * 2 ^ (- binade q))).
  - rewrite inject_Z_mult. clear H1 H2 Hqz.
    set (P := inject_Z (2 ^ (- binade q))) in *.
    set (E' := 2 ^ (- binade q)) in *.
    set (E := 2 ^ binade q) in *. clearbody P E E'. nra.
  - rewrite inject_Z_mult. apply Qmult_comp; [exact Hqz|exact HP].
Qed.

Lemma round64_large (q : Q) :
  9007199254740992 # 1 <= q → 9007199254740992 # 1 <= round64 q.
Proof.
  intros Hq53. assert (0 < q) as Hq by lra.
  rewrite round64_pos by done. unfold roundPos.
  destruct (binade_spec q Hq) as [H1 H2].
  destruct (mantissa_bounds q Hq) as [HM1 HM2].
  pose proof (pow2_pos (binade q)) as HE.
  assert (1 <= binade q)%Z as He.
  { apply Z.le_ngt. intros He.
    assert (binade q <= 0)%Z as He' by lia. apply pow2_mono in He'.
    change (2 ^ 53) with (9007199254740992 # 1) in *.
    change (2 ^ 0) with 1 in *. lra. }
  apply pow2_mono in He. change (2 ^ 1) with 2 in He.
  rewrite Zle_Qle in HM1.
  change (inject_Z 4503599627370496) with (4503599627370496 # 1) in HM1.
  clear H1 H2.
  set (M := inject_Z (roundEven (q * 2 ^ (- binade q)))) in *.
  set (E := 2 ^ binade q) in *. clearbody M E. nra.
Qed.

Lemma round64_error (q : Q) :
  0 < q →
  round64 q - q <= q * (1 # 9007199254740992) ∧
  q - round64 q <= q * (1 # 9007199254740992).
Proof.
  intros Hq. rewrite round64_pos by done. unfold roundPos.
  destruct (binade_spec q Hq) as [H1 _].
  pose proof (roundEven_near (q * 2 ^ (- binade q))) as [Hn1 Hn2].
  pose proof (pow2_inv (binade q)) as Hinv.
  pose proof (pow2_pos (binade q)) as HE.
  change (2 ^ 52) with (4503599627370496 # 1) in *.
  set (M := inject_Z (roundEven (q * 2 ^ (- binade q)))) in *.
  set (E' := 2 ^ (- binade q)) in *.
  set (E := 2 ^ binade q) in *. clearbody M E' E.
  assert (M * E - q == (M - q * E') * E) as -> by nra.
  assert (q - M * E == (q * E' - M) * E) as -> by nra.
  split; nra.
Qed.

Lemma Qgtb_lt (x y : Q) : Qgtb x y = true ↔ y < x.
Proof.
  unfold Qgtb. rewrite negb_true_iff, <- not_true_iff_false, Qle_bool_iff.
  split; [apply Qnot_le_lt|apply Qlt_not_le].
Qed.

(** A quotient by 3 600 000 of a whole number of milliseconds exceeds 8
    after the two roundings exactly when the exact difference exceeds
    eight hours. *)
Lemma round64_hours_gt_8 (a b : Z) :
  8 < round64 (round64 (inject_Z a - inject_Z b) / inject_Z 3600000)
  ↔ (28800000 < a - b)%Z.
Proof.
  set (q0 := inject_Z a - inject_Z b).
  assert (q0 == inject_Z (a - b)) as Hq0.
  { unfold q0, Qminus. by rewrite <- inject_Z_opp, <- inject_Z_plus. }
  change (round64 q0 / inject_Z 3600000) with (round64 q0 * (1 # 3600000)).
  destruct (Z_lt_le_dec 0 (a - b)) as [Hpos|Hneg].
  - destruct (Z_lt_le_dec (a - b) 9007199254740992) as [Hsmall|Hbig].
    + pose proof (round64_integer q0 (a - b) Hq0 (conj Hpos Hsmall)) as Hd.
      assert (0 < inject_Z (a - b)) as Hpos'.
      { change 0 with (inject_Z 0). by rewrite <- Zlt_Qlt. }
      destruct (Z_lt_le_dec 28800000 (a - b)) as [Hover|Hunder].
      * split; [done|]. intros _. apply round64_gt_8.
        assert (inject_Z 28800001 <= inject_Z (a - b)) as Hle.
        { rewrite <- Zle_Qle. lia. }
        change (inject_Z 28800001) with (28800001 # 1) in Hle. lra.
      * split; [|lia]. intros Hgt. exfalso.
        assert (inject_Z (a - b) <= inject_Z 28800000) as Hle.
        { by rewrite <- Zle_Qle. }
        change (inject_Z 28800000) with (28800000 # 1) in Hle.
        assert (round64 (round64 q0 * (1 # 3600000)) <= 8) as Hle8.
        { apply round64_le_8; lra. }
        lra.
    + split; [lia|]. intros _. apply round64_gt_8.
      assert (inject_Z 9007199254740992 <= q0) as Hle.
      { rewrite Hq0, <- Zle_Qle. lia. }
      change (inject_Z 9007199254740992) with (9007199254740992 # 1) in Hle.
      pose proof (round64_large q0 Hle). lra.
  - split; [|lia]. intros Hgt. exfalso.
    assert (inject_Z (a - b) <= 0) as Hle.
    { change 0 with (inject_Z 0). by rewrite <- Zle_Qle. }
    assert (round64 q0 <= 0) as Hd by (apply round64_nonpos; lra).
    assert (round64 (round64 q0 * (1 # 3600000)) <= 0) as Hle0.
    { apply round64_nonpos. lra. }
    lra.
Qed.

Lemma round64_hours_nonneg (a b : Z) :
  (b <= a)%Z →
  0 <= round64 (round64 (inject_Z a - inject_Z b) / inject_Z 3600000).
Proof.
  intros Hle.
  change (?x / inject_Z 3600000) with (x * (1 # 3600000)).
  assert (0 <= inject_Z a - inject_Z b) as Hq0.
  { rewrite Zle_Qle in Hle. lra. }
  apply round64_nonneg. pose proof (round64_nonneg _ Hq0). lra.
Qed.

(** Below 2^53 milliseconds the rounded quotient is within one part in
    2^53 of the exact duration in hours. *)
Lemma round64_hours_error (a b : Z) :
  (0 <= a - b < 9007199254740992)%Z →
  let exact := inject_Z (a - b) / inject_Z 3600000 in
  let h := round64 (round64 (inject_Z a - inject_Z b) / inject_Z 3600000) in
  0 <= h ∧ h - exact <= 1 # 3600000 ∧ exact - h <= 1 # 3600000.
Proof.
  intros [H0 Hsmall]. cbv zeta.
  split; [apply round64_hours_nonneg; lia|].
  set (q0 := inject_Z a - inject_Z b).
  assert (q0 == inject_Z (a - b)) as Hq0.
  { unfold q0, Qminus. by rewrite <- inject_Z_opp, <- inject_Z_plus. }
  change (?x / inject_Z 3600000) with (x * (1 # 3600000)).
  destruct (Z_lt_le_dec 0 (a - b)) as [Hpos|Hzero].
  - pose proof (round64_integer q0 (a - b) Hq0 (conj Hpos Hsmall)) as Hd.
    assert (0 < inject_Z (a - b)) as Hpos'.
    { change 0 with (inject_Z 0). by rewrite <- Zlt_Qlt. }
    assert (inject_Z (a - b) < 9007199254740992 # 1) as Hsmall'.
    { change (9007199254740992 # 1) with (inject_Z 9007199254740992).
      by rewrite <- Zlt_Qlt. }
    assert (0 < round64 q0 * (1 # 3600000)) as Hq2 by lra.
    pose proof (round64_error _ Hq2) as [He1 He2].
    set (h := round64 (round64 q0 * (1 # 3600000))) in *.
    clearbody h. split; lra.
  - assert (a - b = 0)%Z as Hz by lia. rewrite Hz in *.
    rewrite (round64_zero q0) by (rewrite Hq0; reflexivity).
    rewrite (round64_zero (0 * (1 # 3600000))) by reflexivity.
    split; discriminate.
Qed.

(** The digits of [toFixed]: the integer nearest to [a * 10^f]. *)
Lemma fixedDigits_near (a : Q) (f : nat) :
  let scaled := a * inject_Z (10 ^ Z.of_nat f) in
  inject_Z (fixedDigits a f) - scaled <= 1 # 2
  ∧ scaled - inject_Z (fixedDigits a f) < 1 # 2.
Proof.
  cbv zeta. unfold fixedDigits.
  set (t := a * inject_Z (10 ^ Z.of_nat f) + (1 # 2)).
  pose proof (Qfloor_le t) as Hlo. pose proof (Qlt_floor t) as Hhi.
  rewrite inject_Z_plus in Hhi. change (inject_Z 1) with 1 in Hhi.
  unfold t in *. split; lra.
Qed.

Lemma toFixed_small (q : Q) (f : nat) :
  0 <= q → q < inject_Z (10 ^ 21) →
  toFixed (DNum q) f = fixedString (fixedDigits q f) f.
Proof.
  intros H0 Hlt. unfold toFixed.
  assert (Qabs q = q) as ->.
  { destruct q as [n d]. unfold Qabs. f_equal. apply Z.abs_eq.
    unfold Qle in H0. simpl in H0. lia. }
  destruct (Qlt_le_dec q 0) as [Hneg|_]; [lra|].
  destruct (Qlt_le_dec q (inject_Z (10 ^ 21))) as [_|Hbig]; [done|lra].
Qed.

(** [round64] against the kernel's binary64: the quotient in hours and
    its comparison with 8 agree for these pairs of an IN and an OUT time,
    among them the two sides of eight hours, the largest difference of
    two time values, and an OUT before its IN. *)
Example round64_kernel :
  forallb
    (λ ts : Z * Z,
       Qeq_bool (Kernel64.valueOf (Kernel64.hours64 ts.1 ts.2))
         (round64 (round64 (inject_Z ts.2 - inject_Z ts.1) / inject_Z 3600000))
       && bool_decide
            (Kernel64.gt8 (Kernel64.hours64 ts.1 ts.2)
             = Qgtb (round64 (round64 (inject_Z ts.2 - inject_Z ts.1)
                              / inject_Z 3600000)) 8))
    [(0, 3618000); (0, 28800000); (0, 28800001); (0, 28801000);
     (0, 34200000); (0, 1); (0, 7); (0, 0); (1709542800000, 1709571600000);
     (1709542800000, 1709571600001); (0, 8640000000000000);
     (3618000, 0); (1709571600000, 1709542800000);
     (0, 86399999); (0, 1000); (0, 123456789)]%Z
  = true.
Proof. vm_compute. reflexivity. Qed.
End RoundingFacts.
(** * Properties of the sort *)

Section SortFacts.
Context {A : Type} (key : A → Z) (cmp : A → A → Z).
Hypothesis cmp_key : ∀ a b, cmp a b ≤ 0 ↔ key a ≤ key b.

Local Abbreviation le_key := (le_on key).

Lemma insert_sorted_Permutation x l : insert_sorted cmp x l ≡ₚ x :: l.
Proof.
  induction l as [|y l IH]; simpl; [done|].
  case_decide; [done|]. rewrite IH. apply Permutation_swap.
Qed.

Lemma sort_Permutation l : sort cmp l ≡ₚ l.
Proof.
  induction l as [|x l IH]; simpl; [done|].
  rewrite insert_sorted_Permutation. by f_equiv.
Qed.

Lemma insert_sorted_StronglySorted x l :
  StronglySorted le_key l → StronglySorted le_key (insert_sorted cmp x l).
Proof.
  induction 1 as [|y l Hl IH Hy]; simpl.
  - repeat constructor.
  - case_decide as Hxy.
    + apply cmp_key in Hxy. constructor; [by constructor|].
      constructor; [done|].
      eapply Forall_impl; [exact Hy|]. unfold le_on. intros z Hz. lia.
    + constructor; [done|].
      rewrite insert_sorted_Permutation.
      constructor; [|done]. unfold le_on.
      assert (¬ key x ≤ key y) by (by rewrite <- cmp_key). lia.
Qed.

Lemma sort_StronglySorted l : StronglySorted le_key (sort cmp l).
Proof.
  induction l as [|x l IH]; simpl; [constructor|].
  by apply insert_sorted_StronglySorted.
Qed.

(** Stability: the elements with one key come out in their input order. *)
Lemma insert_sorted_stable k x l :
  StronglySorted le_key l →
  filter (λ y, key y = k) (insert_sorted cmp x l)
  = filter (λ y, key y = k) (x :: l).
Proof.
  induction 1 as [|y l Hl IH Hy]; simpl; [done|].
  case_decide as Hxy; [done|].
  assert (key y < key x) as Hlt.
  { assert (¬ key x ≤ key y) by (by rewrite <- cmp_key). lia. }
  rewrite !filter_cons in *. rewrite IH.
  repeat case_decide; try done; lia.
Qed.

Lemma sort_stable k l :
  filter (λ y, key y = k) (sort cmp l) = filter (λ y, key y = k) l.
Proof.
  induction l as [|x l IH]; simpl; [done|].
  rewrite insert_sorted_stable by apply sort_StronglySorted.
  rewrite !filter_cons. by rewrite IH.
Qed.

(** With pairwise distinct keys the sorted output does not depend on the
    input order. *)
Lemma sort_Permutation_eq l1 l2 :
  l1 ≡ₚ l2 → NoDup (key <$> l1) → sort cmp l1 = sort cmp l2.
Proof.
  intros Hp Hnd.
  apply (StronglySorted_unique_strong le_key);
    [|apply sort_StronglySorted..|by rewrite !sort_Permutation].
  intros a b Ha Hb Hab Hba. unfold le_on in *.
  rewrite sort_Permutation in Ha. rewrite sort_Permutation, <- Hp in Hb.
  assert (key a = key b) as Heq by lia.
  apply list_elem_of_lookup in Ha as [i Hi], Hb as [j Hj].
  assert (i = j) as ->.
  { eapply NoDup_lookup; [exact Hnd|..]; rewrite list_lookup_fmap.
    - by rewrite Hi.
    - rewrite Hj. simpl. by rewrite Heq. }
  congruence.
Qed.

(** Two sorted lists whose elements of every single key come in the same
    order are equal. *)
Lemma StronglySorted_filter_eq l1 l2 :
  StronglySorted le_key l1 → StronglySorted le_key l2 →
  (∀ k, filter (λ y, key y = k) l1 = filter (λ y, key y = k) l2) →
  l1 = l2.
Proof.
  intros Hs1. revert l2.
  induction Hs1 as [|x l1 Hs1 IH Hx]; intros l2 Hs2 Heq.
  - destruct l2 as [|z l2]; [done|].
    specialize (Heq (key z)). rewrite filter_nil, filter_cons_True in Heq; done.
  - destruct Hs2 as [|z l2 Hs2 Hz].
    { specialize (Heq (key x)).
      rewrite filter_nil, filter_cons_True in Heq; done. }
    assert (key x = key z) as Hk.
    { destruct (decide (key x = key z)) as [|Hne]; [done|]. exfalso.
      pose proof (Heq (key x)) as Hfx. pose proof (Heq (key z)) as Hfz.
      rewrite filter_cons_True, (filter_cons_False _ z) in Hfx by done.
      rewrite (filter_cons_False _ x), (filter_cons_True _ z) in Hfz by done.
      assert (x ∈ l2) as Hx2.
      { eapply (list_elem_of_filter (λ y, key y = key x)).
        rewrite <- Hfx. by left. }
      assert (z ∈ l1) as Hz1.
      { eapply (list_elem_of_filter (λ y, key y = key z)).
        rewrite Hfz. by left. }
      rewrite Forall_forall in Hx, Hz.
      specialize (Hx _ Hz1). specialize (Hz _ Hx2). unfold le_on in *. lia. }
    assert (x = z) as <-.
    { specialize (Heq (key x)).
      rewrite filter_cons_True, (filter_cons_True _ z) in Heq by done.
      by injection Heq. }
    f_equal. apply IH; [done|]. intros k. specialize (Heq k).
    rewrite !filter_cons in Heq. case_decide; [by injection Heq|done].
Qed.

(** The sorted output depends on the input only through the order in
    which it lists the elements of every single key. *)
Lemma sort_filter_eq l1 l2 :
  (∀ k, filter (λ y, key y = k) l1 = filter (λ y, key y = k) l2) →
  sort cmp l1 = sort cmp l2.
Proof.
  intros Heq. apply StronglySorted_filter_eq; [apply sort_StronglySorted..|].
  intros k. by rewrite !sort_stable.
Qed.
End SortFacts.

(** * Properties of [lastIn] *)
Section LastInFacts.
Implicit Types (l : LastIn) (k : string) (e v : AttendanceLog).

Lemma lookupIn_Event l k e :
  lookupIn l k = Some (Event e) ↔ pendingIn l k = Some e.
Proof.
  unfold lookupIn, pendingIn. case_decide.
  - destruct (proto l); naive_solver.
  - destruct (own l !! k); [naive_solver|].
    destruct (inheritedTruthy _ _); naive_solver.
Qed.

Lemma pendingIn_empty k : pendingIn emptyIn k = None.
Proof. unfold pendingIn. by case_decide. Qed.

Lemma pendingIn_assign l k v k' :
  pendingIn (assignIn l k v) k'
  = if decide (k' = k) then Some v else pendingIn l k'.
Proof.
  unfold pendingIn, assignIn.
  destruct (decide (k = "__proto__")) as [->|Hk]; simpl.
  - repeat case_decide; congruence.
  - destruct (decide (k' = "__proto__")) as [->|Hk'].
    + by rewrite decide_False by done.
    + case_decide as Heq.
      * subst. apply lookup_insert_eq.
      * by apply lookup_insert_ne.
Qed.

Lemma pendingIn_assign_eq l k v : pendingIn (assignIn l k v) k = Some v.
Proof. by rewrite pendingIn_assign, decide_True. Qed.

Lemma pendingIn_assign_ne l k v k' :
  k' ≠ k → pendingIn (assignIn l k v) k' = pendingIn l k'.
Proof. intros. by rewrite pendingIn_assign, decide_False. Qed.

Lemma pendingIn_delete_ne l k k' :
  k' ≠ k → pendingIn (deleteIn l k) k' = pendingIn l k'.
Proof.
  intros Hne. unfold pendingIn, deleteIn. simpl.
  case_decide; [done|]. by apply lookup_delete_ne.
Qed.

(** [delete] adds nothing. *)
Lemma pendingIn_delete_Some l k k' v :
  pendingIn (deleteIn l k) k' = Some v → pendingIn l k' = Some v.
Proof.
  unfold pendingIn, deleteIn. simpl. case_decide; [done|].
  by intros [_ ?]%lookup_delete_Some.
Qed.

(** Under an identifier that names no property of [Object.prototype],
    and while no event has been made the prototype, [lastIn] behaves as a
    finite map. *)
Lemma lookupIn_plain l k :
  proto l = None → k ∉ objectPrototypeKeys →
  lookupIn l k = Event <$> own l !! k.
Proof.
  intros Hp Hk. unfold lookupIn.
  rewrite decide_False by (intros ->; apply Hk; set_solver).
  destruct (own l !! k); [done|]. unfold inheritedTruthy. rewrite Hp. simpl.
  by rewrite bool_decide_eq_false_2.
Qed.

Lemma pendingIn_plain l k :
  k ∉ objectPrototypeKeys → pendingIn l k = own l !! k.
Proof.
  intros Hk. unfold pendingIn.
  by rewrite decide_False by (intros ->; apply Hk; set_solver).
Qed.

Lemma assignIn_plain l k v :
  k ∉ objectPrototypeKeys →
  assignIn l k v = {| own := <[k := v]> (own l); proto := proto l |}.
Proof.
  intros Hk. unfold assignIn.
  by rewrite decide_False by (intros ->; apply Hk; set_solver).
Qed.
End LastInFacts.

(** * Properties of the scan *)
Section ScanFacts.
Context `{Host}.

Implicit Types (log : AttendanceLog) (logs rest : list AttendanceLog).
Implicit Types (inLog : InValue).
Implicit Types (lastIn : LastIn).
Implicit Types (ps : list (InValue * AttendanceLog)).

Lemma byTimestamp_key a b : byTimestamp a b ≤ 0 ↔ timeOf a ≤ timeOf b.
Proof. unfold byTimestamp, timeOf. lia. Qed.

Lemma sortedLogs_Permutation logs : sortedLogs logs ≡ₚ logs.
Proof. apply sort_Permutation. Qed.

Lemma sortedLogs_sorted logs : StronglySorted (le_on timeOf) (sortedLogs logs).
Proof. apply sort_StronglySorted, byTimestamp_key. Qed.

Lemma scanLogs_app {S} (emit : InValue → AttendanceLog → S) logs1 logs2 st :
  scanLogs emit (logs1 ++ logs2) st = scanLogs emit logs2 (scanLogs emit logs1 st).
Proof. unfold scanLogs. apply fold_left_app. Qed.

Lemma scanLogs_cons {S} (emit : InValue → AttendanceLog → S) log logs st :
  scanLogs emit (log :: logs) st = scanLogs emit logs (scanLog emit st log).
Proof. done. Qed.

(** The values found determine the shifts: scanning with any [emit] is
    scanning with [pair] and rendering afterwards. *)
Lemma scanLogs_emit {S} (emit : InValue → AttendanceLog → S) logs ps lastIn :
  scanLogs emit logs (uncurry emit <$> ps, lastIn)
  = ((uncurry emit <$> (scanLogs pair logs (ps, lastIn)).1),
     (scanLogs pair logs (ps, lastIn)).2).
Proof.
  revert ps lastIn. induction logs as [|log logs IH]; intros ps lastIn; [done|].
  unfold scanLogs in *. simpl.
  destruct (type log); [apply IH|].
  destruct (lookupIn lastIn (employee_id log)) as [inLog|]; [|apply IH].
  rewrite <- IH. by rewrite fmap_app.
Qed.

Lemma reconstruct_shiftPairs {S} (emit : InValue → AttendanceLog → S) logs :
  reconstruct emit logs = uncurry emit <$> shiftPairs logs.
Proof.
  unfold shiftPairs, reconstruct.
  rewrite (scanLogs_emit emit _ [] emptyIn). simpl.
  by rewrite fmap_reverse.
Qed.

Lemma calculateShifts_shiftPairs logs :
  calculateShifts logs = uncurry mkShift <$> shiftPairs logs.
Proof. apply reconstruct_shiftPairs. Qed.

(** Every shift returned is the rendering of one of the pairs. *)
Lemma calculateShifts_elem_of logs s :
  s ∈ calculateShifts logs →
  ∃ inLog log, (inLog, log) ∈ shiftPairs logs ∧ s = mkShift inLog log.
Proof.
  rewrite calculateShifts_shiftPairs.
  intros ([inLog log] & -> & Hp)%list_elem_of_fmap. by exists inLog, log.
Qed.

(** Whatever holds of the events scanned and of the events held holds of
    the events of every pair and of the events held afterwards. *)
Lemma scanLogs_events (P : AttendanceLog → Prop) logs ps lastIn :
  Forall P logs →
  (∀ k v, pendingIn lastIn k = Some v → P v) →
  Forall (λ p, ∀ e, p.1 = Event e → P e) ps →
  Forall (λ p, ∀ e, p.1 = Event e → P e) (scanLogs pair logs (ps, lastIn)).1
  ∧ ∀ k v, pendingIn (scanLogs pair logs (ps, lastIn)).2 k = Some v → P v.
Proof.
  intros Hl. revert ps lastIn.
  induction Hl as [|log logs Hlog _ IH]; intros ps lastIn Hm Hps; [done|].
  rewrite scanLogs_cons. unfold scanLog.
  destruct (type log).
  - apply IH; [|done]. intros k v. rewrite pendingIn_assign.
    case_decide; [by intros [= <-]|apply Hm].
  - destruct (lookupIn lastIn (employee_id log)) as [inLog|] eqn:Hin;
      [|by apply IH].
    apply IH.
    + intros k v Hv. eapply Hm, pendingIn_delete_Some, Hv.
    + apply Forall_app; split; [done|].
      apply Forall_singleton. simpl. intros e ->.
      apply lookupIn_Event in Hin. by eapply Hm.
Qed.

(** The scan only appends to the shifts, each closed by an event it
    visited. *)
Lemma scanLogs_appends logs st :
  ∃ more, (scanLogs pair logs st).1 = st.1 ++ more
          ∧ Forall (λ p, p.2 ∈ logs) more.
Proof.
  revert st. induction logs as [|log logs IH]; intros [ps m].
  { exists []. by rewrite app_nil_r. }
  rewrite scanLogs_cons. unfold scanLog.
  destruct (type log).
  - destruct (IH (ps, assignIn m (employee_id log) log)) as (more & -> & HF).
    exists more. split; [done|].
    eapply Forall_impl; [exact HF|]. intros p Hp. by right.
  - destruct (lookupIn m (employee_id log)) as [inLog|].
    + destruct (IH (ps ++ [(inLog, log)], deleteIn m (employee_id log)))
        as (more & -> & HF).
      exists ((inLog, log) :: more). simpl. split; [by rewrite <- app_assoc|].
      constructor; [by left|].
      eapply Forall_impl; [exact HF|]. intros p Hp. by right.
    + destruct (IH (ps, m)) as (more & -> & HF).
      exists more. split; [done|].
      eapply Forall_impl; [exact HF|]. intros p Hp. by right.
Qed.

(** Events of other employees leave the event held for an employee as
    it is. *)
Lemma scanLogs_other (e : string) logs st :
  Forall (λ log, employee_id log ≠ e) logs →
  pendingIn (scanLogs pair logs st).2 e = pendingIn st.2 e.
Proof.
  intros HF. revert st.
  induction HF as [|log logs Hne _ IH]; intros [ps m]; [done|].
  rewrite scanLogs_cons, IH. unfold scanLog.
  destruct (type log); simpl.
  - by apply pendingIn_assign_ne.
  - destruct (lookupIn m (employee_id log)); simpl; [|done].
    by apply pendingIn_delete_ne.
Qed.

Lemma before_tail x rest log : before (x :: rest) log → before rest log.
Proof. unfold before. by inv 1. Qed.

Lemma before_head x rest log : before (x :: rest) log → timeOf log ≤ timeOf x.
Proof. unfold before. by inv 1. Qed.

Lemma scanInv_init rest : scanInv rest ([], emptyIn).
Proof.
  split; simpl; [|constructor..].
  intros k v. by rewrite pendingIn_empty.
Qed.

Lemma scanInv_step x rest st :
  scanInv (x :: rest) st → before rest x → scanInv rest (scanLog pair st x).
Proof.
  destruct st as [ps lastIn]. intros [Hm Hp Ho Hs] Hx. simpl in *.
  assert (∀ k v, pendingIn lastIn k = Some v →
                 employee_id v = k ∧ type v = IN ∧ before rest v) as Hm'.
  { intros k v Hv. destruct (Hm _ _ Hv) as (? & ? & ?).
    eauto using before_tail. }
  assert (Forall (λ p, before rest p.2) ps) as Ho'.
  { eapply Forall_impl; [exact Ho|]. intros p. apply before_tail. }
  destruct (type x) eqn:Hty.
  - split; simpl; [|done..]. intros k v. rewrite pendingIn_assign.
    case_decide as Hk; [|apply Hm']. by intros [= <-].
  - destruct (lookupIn lastIn (employee_id x)) as [inLog|] eqn:Hin; [|by split].
    split; simpl.
    + intros k v Hv. eapply Hm', pendingIn_delete_Some, Hv.
    + apply Forall_app; split; [done|]. apply Forall_singleton.
      split; [done|]. simpl. destruct inLog as [e|]; [|done].
      apply lookupIn_Event in Hin.
      destruct (Hm _ _ Hin) as (Hid & Hin_ty & Hbefore).
      split_and!; [done..|]. by eapply before_head.
    + apply Forall_app; split; [done|]. by apply Forall_singleton.
    + apply StronglySorted_app_2; [|done|repeat constructor].
      intros p q Hp_in ->%list_elem_of_singleton. unfold le_on. simpl.
      rewrite Forall_forall in Ho. eapply before_head, Ho, Hp_in.
Qed.

Lemma scanInv_scanLogs logs st :
  StronglySorted (le_on timeOf) logs →
  scanInv logs st → scanInv [] (scanLogs pair logs st).
Proof.
  intros Hs. revert st.
  induction Hs as [|x rest _ IH Hx]; intros st Hst; [done|].
  apply IH, scanInv_step; done.
Qed.

Lemma scanInv_sortedLogs logs :
  scanInv [] (scanLogs pair (sortedLogs logs) ([], emptyIn)).
Proof. apply scanInv_scanLogs, scanInv_init. apply sortedLogs_sorted. Qed.

Lemma StronglySorted_reverse {A} (R : relation A) (l : list A) :
  StronglySorted R l → StronglySorted (flip R) (reverse l).
Proof.
  induction 1 as [|x l _ IH Hx]; [constructor|].
  rewrite reverse_cons. apply StronglySorted_app_2; [|done|repeat constructor].
  intros y z Hy ->%list_elem_of_singleton. unfold flip.
  rewrite Forall_forall in Hx. apply Hx. by apply elem_of_reverse.
Qed.

Lemma shiftPairs_pairOk logs : Forall pairOk (shiftPairs logs).
Proof.
  unfold shiftPairs, reconstruct. apply Forall_reverse.
  apply (inv_pairs _ _ (scanInv_sortedLogs logs)).
Qed.

Lemma shiftPairs_out_sorted logs :
  StronglySorted (λ p q, timeOf q.2 ≤ timeOf p.2) (shiftPairs logs).
Proof.
  unfold shiftPairs, reconstruct.
  apply (StronglySorted_reverse (le_on (λ p, timeOf p.2))).
  apply (inv_sorted _ _ (scanInv_sortedLogs logs)).
Qed.

(** The events of the pairs are events of the input. *)
Lemma shiftPairs_elem_of logs (e : AttendanceLog) log :
  (Event e, log) ∈ shiftPairs logs → e ∈ logs.
Proof.
  unfold shiftPairs, reconstruct. rewrite elem_of_reverse. intros Hp.
  destruct (scanLogs_events (λ x, x ∈ logs) (sortedLogs logs) [] emptyIn)
    as [HF _].
  - apply Forall_forall. intros x. by rewrite sortedLogs_Permutation.
  - intros k v. by rewrite pendingIn_empty.
  - constructor.
  - rewrite Forall_forall in HF. by apply (HF _ Hp).
Qed.

Lemma shiftPairs_out_elem_of logs p : p ∈ shiftPairs logs → p.2 ∈ logs.
Proof.
  unfold shiftPairs, reconstruct. rewrite elem_of_reverse. intros Hp.
  destruct (scanLogs_appends (sortedLogs logs) ([], emptyIn))
    as (more & Hmore & HF).
  rewrite Hmore in Hp. simpl in Hp. rewrite Forall_forall in HF.
  rewrite <- (sortedLogs_Permutation logs). by apply HF.
Qed.

(** *** Plain identifiers

    While every identifier scanned names no property of
    [Object.prototype], no event becomes the prototype and every value
    found is an event. *)
Lemma scanLogs_plain logs ps lastIn :
  plainIds logs →
  proto lastIn = None →
  Forall (λ p, ∃ e, p.1 = Event e) ps →
  proto (scanLogs pair logs (ps, lastIn)).2 = None
  ∧ Forall (λ p, ∃ e, p.1 = Event e) (scanLogs pair logs (ps, lastIn)).1.
Proof.
  intros Hl. revert ps lastIn.
  induction Hl as [|log logs Hlog _ IH]; intros ps lastIn Hproto Hps; [done|].
  rewrite scanLogs_cons. unfold scanLog.
  destruct (type log).
  - apply IH; [|done]. by rewrite assignIn_plain.
  - rewrite lookupIn_plain by done.
    destruct (own lastIn !! employee_id log) as [e|]; simpl; [|by apply IH].
    apply IH; [done|].
    apply Forall_app; split; [done|]. apply Forall_singleton. by exists e.
Qed.

Lemma shiftPairs_plain logs :
  plainIds logs → Forall (λ p, ∃ e, p.1 = Event e) (shiftPairs logs).
Proof.
  intros Hl. unfold shiftPairs, reconstruct. apply Forall_reverse.
  apply scanLogs_plain; [|done|constructor].
  unfold plainIds in *. apply Forall_forall. intros x Hx.
  rewrite Forall_forall in Hl. apply Hl.
  by rewrite <- (sortedLogs_Permutation logs).
Qed.
End ScanFacts.

(** * The shift reconstructor *)
Section ReconstructorFacts.
Context `{Host}.

Implicit Types (log : AttendanceLog) (logs : list AttendanceLog).

(** C1 (amended): the shifts returned by [calculateShifts] are in
    reverse-chronological order of their OUT events, the shift completed
    last coming first.  The list returned is the rendering of
    [shiftPairs], whose entries carry the two events of each shift. *)
Theorem calculateShifts_out_descending logs :
  calculateShifts logs = uncurry mkShift <$> shiftPairs logs
  ∧ byOutDescending (shiftPairs logs).
Proof.
  split; [apply calculateShifts_shiftPairs|].
  unfold byOutDescending, shiftPairs, reconstruct.
  apply (StronglySorted_reverse (le_on (λ p, timeOf p.2))).
  apply (inv_sorted _ _ (scanInv_sortedLogs logs)).
Qed.

(** C2 (amended): two inputs that are permutations of each other and
    whose events have pairwise distinct timestamps yield the same sequence
    of shifts.  Events with equal timestamps are scanned in their input
    order: the array scanned is in ascending order of timestamps and lists
    the events of every single timestamp as the input does, so that two
    inputs that list the events of every single timestamp in the same
    order yield the same sequence of shifts. *)
Theorem calculateShifts_Permutation logs1 logs2 :
  (logs1 ≡ₚ logs2 → NoDup (timeOf <$> logs1) →
   calculateShifts logs1 = calculateShifts logs2)
  ∧ calculateShifts logs1
    = reverse (scanLogs mkShift (sortedLogs logs1) ([], emptyIn)).1
  ∧ StronglySorted (le_on timeOf) (sortedLogs logs1)
  ∧ (∀ t, filter (λ log, timeOf log = t) (sortedLogs logs1)
          = filter (λ log, timeOf log = t) logs1)
  ∧ ((∀ t, filter (λ log, timeOf log = t) logs1
           = filter (λ log, timeOf log = t) logs2) →
     calculateShifts logs1 = calculateShifts logs2).
Proof.
  split_and!.
  - intros Hp Hnd. unfold calculateShifts, reconstruct, sortedLogs.
    by rewrite (sort_Permutation_eq timeOf byTimestamp byTimestamp_key logs1 logs2).
  - done.
  - apply sortedLogs_sorted.
  - intros t. apply (sort_stable timeOf), byTimestamp_key.
  - intros Heq. unfold calculateShifts, reconstruct, sortedLogs.
    by rewrite (sort_filter_eq timeOf byTimestamp byTimestamp_key logs1 logs2).
Qed.

(** An event that is neither held nor still to come is never paired. *)
Lemma scanLogs_not_held (y : AttendanceLog) (k : string) logs ps lastIn :
  Forall (λ log, employee_id log ≠ k ∧ log ≠ y) logs →
  (∀ k' v, k' ≠ k → pendingIn lastIn k' = Some v → v ≠ y) →
  Forall (λ p, p.1 ≠ Event y) ps →
  Forall (λ p, p.1 ≠ Event y) (scanLogs pair logs (ps, lastIn)).1
  ∧ ∀ k' v, k' ≠ k →
            pendingIn (scanLogs pair logs (ps, lastIn)).2 k' = Some v → v ≠ y.
Proof.
  intros Hl. revert ps lastIn.
  induction Hl as [|log logs [Hk Hy] _ IH]; intros ps lastIn Hm Hps; [done|].
  rewrite scanLogs_cons. unfold scanLog.
  destruct (type log).
  - apply IH; [|done]. intros k' v Hk'. rewrite pendingIn_assign.
    case_decide; [by intros [= <-]|by apply Hm].
  - destruct (lookupIn lastIn (employee_id log)) as [inLog|] eqn:Hin;
      [|by apply IH].
    apply IH.
    + intros k' v Hk' Hv. eapply Hm, pendingIn_delete_Some, Hv. done.
    + apply Forall_app; split; [done|].
      apply Forall_singleton. simpl. intros ->.
      apply lookupIn_Event in Hin. by eapply Hm.
Qed.

(** The scan around a missed clock-out: [y] and [y'] are two INs of one
    employee with no event of that employee between them. *)
Lemma scanLogs_double_in logs l1 l2 l3 (y y' : AttendanceLog) :
  NoDup logs →
  sortedLogs logs = l1 ++ y :: l2 ++ y' :: l3 →
  type y = IN → type y' = IN →
  employee_id y = employee_id y' →
  Forall (λ log, employee_id log ≠ employee_id y) l2 →
  timeOf y ≤ timeOf y'
  ∧ lookupIn (scanLogs pair (l1 ++ y :: l2) ([], emptyIn)).2 (employee_id y')
    = Some (Event y)
  ∧ (scanLog pair (scanLogs pair (l1 ++ y :: l2) ([], emptyIn)) y').1
    = (scanLogs pair (l1 ++ y :: l2) ([], emptyIn)).1
  ∧ lookupIn (scanLog pair (scanLogs pair (l1 ++ y :: l2) ([], emptyIn)) y').2
      (employee_id y')
    = Some (Event y')
  ∧ ∀ log, (Event y, log) ∉ shiftPairs logs.
Proof.
  intros Hnd Hsorted Hy Hy' Hid Hl2.
  assert (NoDup (l1 ++ y :: l2 ++ y' :: l3)) as Hnd'.
  { rewrite <- Hsorted. by rewrite sortedLogs_Permutation. }
  apply NoDup_app in Hnd' as (_ & Hl1 & Hnd').
  apply NoDup_cons in Hnd' as [Hrest _].
  rewrite elem_of_app, elem_of_cons in Hrest.
  assert (y ∉ l1) as Hy1 by (intros Hin; eapply Hl1; [done|by left]).
  assert (y ∉ l2) as Hy2 by tauto.
  assert (y' ≠ y) as Hyy by (intros ->; tauto).
  assert (y ∉ l3) as Hy3 by tauto.
  pose proof (sortedLogs_sorted logs) as Hs. rewrite Hsorted in Hs.
  apply StronglySorted_app_1_r, StronglySorted_cons in Hs as [Hlater _].
  rewrite Forall_app, Forall_cons in Hlater. destruct Hlater as (_ & Hle & _).
  split; [exact Hle|].
  unfold shiftPairs, reconstruct. rewrite Hsorted.
  repeat (rewrite scanLogs_app || rewrite scanLogs_cons).
  destruct (scanLogs_events (λ x, x ≠ y) l1 [] emptyIn) as [Hps1 Hm1].
  { apply Forall_forall. by intros x Hx ->. }
  { intros k v. by rewrite pendingIn_empty. }
  { constructor. }
  destruct (scanLogs pair l1 ([], emptyIn)) as [ps1 m1]. simpl in Hps1, Hm1.
  assert (scanLog pair (ps1, m1) y = (ps1, assignIn m1 (employee_id y) y)) as ->.
  { unfold scanLog. by rewrite Hy. }
  destruct (scanLogs_not_held y (employee_id y) l2 ps1
              (assignIn m1 (employee_id y) y)) as [Hps2 Hm2].
  { rewrite Forall_forall in Hl2. apply Forall_forall. intros x Hx.
    split; [by apply Hl2|]. by intros ->. }
  { intros k' v Hk'. rewrite pendingIn_assign_ne by done. apply Hm1. }
  { eapply Forall_impl; [exact Hps1|]. intros p Hp Heq. by eapply Hp. }
  pose proof (scanLogs_other (employee_id y) l2
                (ps1, assignIn m1 (employee_id y) y) Hl2) as Hheld.
  simpl in Hheld. rewrite pendingIn_assign_eq in Hheld.
  destruct (scanLogs pair l2 (ps1, assignIn m1 (employee_id y) y)) as [ps2 m2].
  simpl in Hps2, Hm2, Hheld.
  assert (scanLog pair (ps2, m2) y' = (ps2, assignIn m2 (employee_id y') y'))
    as ->.
  { unfold scanLog. by rewrite Hy'. }
  simpl. split_and!.
  - apply lookupIn_Event. by rewrite <- Hid.
  - done.
  - apply lookupIn_Event, pendingIn_assign_eq.
  - intros log. rewrite elem_of_reverse. intros Hin.
    destruct (scanLogs_events (λ x, x ≠ y) l3 ps2
                (assignIn m2 (employee_id y') y')) as [Hps3 _].
    { apply Forall_forall. by intros x Hx ->. }
    { intros k v. rewrite pendingIn_assign. case_decide as Hk.
      - by intros [= <-].
      - apply Hm2. by rewrite Hid. }
    { eapply Forall_impl; [exact Hps2|]. intros p Hp e He ->. by apply Hp. }
    rewrite Forall_forall in Hps3. by apply (Hps3 _ Hin y).
Qed.

(** A pair that begins with an event joins an IN and a later OUT of one
    employee, both events of the input. *)
Lemma shiftPairs_Event logs (e : AttendanceLog) log :
  (Event e, log) ∈ shiftPairs logs →
  e ∈ logs ∧ log ∈ logs
  ∧ type e = IN ∧ type log = OUT
  ∧ employee_id e = employee_id log
  ∧ timeOf e ≤ timeOf log.
Proof.
  intros Hp.
  pose proof (shiftPairs_pairOk logs) as HF. rewrite Forall_forall in HF.
  destruct (HF _ Hp) as (Hout & Hid & Hin & Hle). simpl in *.
  split_and!; try done.
  - by eapply shiftPairs_elem_of.
  - apply (shiftPairs_out_elem_of _ _ Hp).
Qed.

(** With plain identifiers every shift is the rendering of such a pair. *)
Lemma calculateShifts_plain logs s :
  plainIds logs →
  s ∈ calculateShifts logs →
  ∃ e log, (Event e, log) ∈ shiftPairs logs ∧ s = mkShift (Event e) log.
Proof.
  intros Hplain ([e|] & log & Hp & ->)%calculateShifts_elem_of.
  - by eexists _, _.
  - pose proof (shiftPairs_plain logs Hplain) as HF.
    rewrite Forall_forall in HF. by destruct (HF _ Hp) as [e ?].
Qed.

(** C8 (amended): when no employee identifier names a property that
    every object inherits, no shift returned has a negative duration:
    each is the rendering of an IN and an OUT that is not earlier, and its
    duration in hours is a number that is not below zero.  A duration of
    zero is possible, and such a shift is returned like any other. *)
Theorem calculateShifts_duration_nonneg logs s :
  plainIds logs →
  s ∈ calculateShifts logs →
  ∃ inLog log,
    (Event inLog, log) ∈ shiftPairs logs
    ∧ s = mkShift (Event inLog) log
    ∧ timeOf inLog ≤ timeOf log
    ∧ ∃ q, hoursOf (Event inLog) log = DNum q ∧ (0 <= q)%Q.
Proof.
  intros Hplain (inLog & log & Hp & ->)%calculateShifts_plain; [|done].
  exists inLog, log.
  destruct (shiftPairs_Event _ _ _ Hp) as (_ & _ & _ & _ & _ & Hle).
  split_and!; [done..|].
  eexists. split; [reflexivity|]. by apply round64_hours_nonneg.
Qed.

(** C5 (amended): when no employee identifier names a property that
    every object inherits, every shift returned renders an IN and an OUT
    of the input; its [hours] field is the text of [toFixed(2)] for the
    quotient, in hours, of OUT - IN, and so shows the duration rounded to
    two decimals; the shift is flagged as overtime exactly when OUT - IN
    itself exceeds eight hours: a shift of exactly eight hours is not
    overtime, one of eight hours and a second is. *)
Theorem calculateShifts_overtime logs s :
  plainIds logs →
  s ∈ calculateShifts logs →
  ∃ inLog log,
    (Event inLog, log) ∈ shiftPairs logs
    ∧ s = mkShift (Event inLog) log
    ∧ hours s = toFixed (hoursOf (Event inLog) log) 2
    ∧ (isOvertime s = true ↔ 8 * (1000 * 60 * 60) < timeOf log - timeOf inLog)
    ∧ (timeOf log - timeOf inLog = 8 * (1000 * 60 * 60) → isOvertime s = false)
    ∧ (timeOf log - timeOf inLog < 9007199254740992 →
       ∃ n : Z,
         hours s = fixedString n 2
         ∧ (inject_Z n / 100
              - inject_Z (timeOf log - timeOf inLog) / inject_Z (1000 * 60 * 60)
            <= (1 # 200) + (1 # 3600000))%Q
         ∧ (inject_Z (timeOf log - timeOf inLog) / inject_Z (1000 * 60 * 60)
              - inject_Z n / 100
            <= (1 # 200) + (1 # 3600000))%Q).
Proof.
  intros Hplain (inLog & log & Hp & ->)%calculateShifts_plain; [|done].
  exists inLog, log.
  destruct (shiftPairs_Event _ _ _ Hp) as (_ & _ & _ & _ & _ & Hle).
  assert (isOvertime (mkShift (Event inLog) log) = true
          ↔ 8 * (1000 * 60 * 60) < timeOf log - timeOf inLog) as Hover.
  { simpl. unfold double_gt, hoursOf, durationMs.
    rewrite Qgtb_lt. apply round64_hours_gt_8. }
  split_and!; [done..| |].
  - intros Heq. apply not_true_iff_false. rewrite Hover. lia.
  - intros Hsmall.
    destruct (round64_hours_error (timeOf log) (timeOf inLog))
      as (H0 & He1 & He2); [lia|].
    set (h := round64 _) in H0, He1, He2.
    assert (inject_Z (timeOf log - timeOf inLog) < 9007199254740992 # 1)%Q
      as Hsmall'.
    { change (9007199254740992 # 1) with (inject_Z 9007199254740992).
      by rewrite <- Zlt_Qlt. }
    change (inject_Z (1000 * 60 * 60)) with (inject_Z 3600000).
    change (?x / inject_Z 3600000)%Q with (x * (1 # 3600000))%Q in *.
    exists (fixedDigits h 2).
    change (hours (mkShift (Event inLog) log)) with (toFixed (DNum h) 2).
    split.
    { apply toFixed_small; [done|].
      change (inject_Z (10 ^ 21)) with (1000000000000000000000 # 1). lra. }
    destruct (fixedDigits_near h 2) as [Hn1 Hn2].
    change (inject_Z (10 ^ Z.of_nat 2)) with (100 # 1) in Hn1, Hn2.
    change (?x / 100)%Q with (x * (1 # 100))%Q.
    clearbody h. split; lra.
Qed.
End ReconstructorFacts.

(** * The specified examples *)
Import ExampleHost Examples.

Example calculateShifts_empty : calculateShifts [] = [].
Proof. reflexivity. Qed.

Example calculateShifts_eight_hours :
  calculateShifts logs_eight
  = [ {| employee := "Employee E1"; date := "2024-03-04";
         in_ := "09:00:00"; out := "17:00:00";
         hours := "8.00"; isOvertime := false |} ].
Proof. vm_compute. reflexivity. Qed.

Example calculateShifts_nine_and_a_half_hours :
  calculateShifts [in0900; out1830]
  = [ {| employee := "Employee E1"; date := "2024-03-04";
         in_ := "09:00:00"; out := "18:30:00";
         hours := "9.50"; isOvertime := true |} ].
Proof. vm_compute. reflexivity. Qed.

(** The order in which the server sends the events does not matter here. *)
Example calculateShifts_eight_hours_desc :
  calculateShifts logs_eight_desc = calculateShifts logs_eight.
Proof. vm_compute. reflexivity. Qed.

(** [toFixed] rounds the double, not the decimal it was written as: an
    hour and eighteen seconds is the double just below 1.005. *)
Example toFixed_below_half :
  toFixed (DNum (round64 (3618000 / 3600000))) 2 = "1.00"
  ∧ toFixed (DNum (round64 (- (1 # 1000)))) 2 = "-0.00"
  ∧ toFixed (DNum (round64 (5 # 2))) 0 = "3"
  ∧ toFixed (DNum (round64 (inject_Z (2 ^ 70)))) 2 = "1.1805916207174113e+21"
  ∧ toFixed DNaN 2 = "NaN".
Proof. vm_compute. done. Qed.

(** C3: in a collection of distinct events, when an IN of an employee
    follows, in the sorted array, an IN of the same employee with no event
    of that employee in between, the earlier IN is not later in time and
    is the one held when the later is scanned; scanning the later one
    adds no shift and puts it in the place of the earlier one, which is in
    no shift of the result.  On IN 09:00, IN 10:00, OUT 17:00 of one
    employee, in ascending order, in the descending order in which the
    server sends the events, and with the two INs swapped, the only shift
    joins the 10:00 IN and the OUT. *)
Theorem calculateShifts_in_overwrites :
  (∀ (H : Host) (logs l1 l2 l3 : list AttendanceLog) (y y' : AttendanceLog),
     NoDup logs →
     sortedLogs logs = l1 ++ y :: l2 ++ y' :: l3 →
     type y = IN → type y' = IN →
     employee_id y = employee_id y' →
     Forall (λ log, employee_id log ≠ employee_id y) l2 →
     timeOf y ≤ timeOf y'
     ∧ lookupIn (scanLogs pair (l1 ++ y :: l2) ([], emptyIn)).2 (employee_id y')
       = Some (Event y)
     ∧ (scanLog pair (scanLogs pair (l1 ++ y :: l2) ([], emptyIn)) y').1
       = (scanLogs pair (l1 ++ y :: l2) ([], emptyIn)).1
     ∧ lookupIn (scanLog pair (scanLogs pair (l1 ++ y :: l2) ([], emptyIn)) y').2
         (employee_id y')
       = Some (Event y')
     ∧ (∀ log, (Event y, log) ∉ shiftPairs logs)
     ∧ calculateShifts logs = uncurry mkShift <$> shiftPairs logs)
  ∧ shiftPairs logs_double_in = [(Event in1000, out1700)]
  ∧ shiftPairs logs_double_in_desc = [(Event in1000, out1700)]
  ∧ shiftPairs [in1000; in0900; out1700] = [(Event in1000, out1700)]
  ∧ calculateShifts logs_double_in
    = [ {| employee := "Employee E1"; date := "2024-03-04";
           in_ := "10:00:00"; out := "17:00:00";
           hours := "7.00"; isOvertime := false |} ]
  ∧ calculateShifts logs_double_in_desc = calculateShifts logs_double_in
  ∧ calculateShifts [in1000; in0900; out1700] = calculateShifts logs_double_in.
Proof.
  split; [|split_and!; vm_compute; reflexivity].
  intros H logs l1 l2 l3 y y' Hnd Hsorted Hy Hy' Hid Hl2.
  destruct (scanLogs_double_in logs l1 l2 l3 y y' Hnd Hsorted Hy Hy' Hid Hl2)
    as (? & ? & ? & ? & ?).
  split_and!; try done. apply calculateShifts_shiftPairs.
Qed.

(** C4 fails for an employee whose identifier names a property that
    every object inherits: the OUT 09:00 of employee "constructor", with
    nothing before it, finds the inherited property and a shift is pushed,
    with an invalid start and no duration.  For employee E1 the same input
    yields no shift. *)
Theorem calculateShifts_orphan_out_inherited :
  calculateShifts [out0900_constructor]
  = [ {| employee := "Employee constructor"; date := "Invalid Date";
         in_ := "Invalid Date"; out := "09:00:00";
         hours := "NaN"; isOvertime := false |} ]
  ∧ lookupIn emptyIn "constructor" = Some NotEvent
  ∧ calculateShifts logs_orphan = [].
Proof. split_and!; vm_compute; reflexivity. Qed.

(** C9 fails for the same reason: the OUT of employee "constructor" is
    paired with no IN at all, and once an IN of employee "__proto__" has
    been scanned the OUT of employee "type" is paired with a field of
    that other employee's event. *)
Theorem shiftPairs_not_an_event :
  shiftPairs [out0900_constructor] = [(NotEvent, out0900_constructor)]
  ∧ shiftPairs [in0900_proto; out1000_type] = [(NotEvent, out1000_type)]
  ∧ calculateShifts [in0900_proto; out1000_type]
    = [ {| employee := "Employee type"; date := "Invalid Date";
           in_ := "Invalid Date"; out := "10:00:00";
           hours := "NaN"; isOvertime := false |} ].
Proof. split_and!; vm_compute; reflexivity. Qed.

(** C1, as stated, fails: E2 clocks in after E1 and out before E1, so the
    shift of E1, whose IN is the earlier one, comes first. *)
Lemma calculateShifts_not_in_descending :
  calculateShifts logs_nested
  = [ {| employee := "Employee E1"; date := "2024-03-04";
         in_ := "09:00:00"; out := "17:00:00";
         hours := "8.00"; isOvertime := false |};
      {| employee := "Employee E2"; date := "2024-03-04";
         in_ := "10:00:00"; out := "11:00:00";
         hours := "1.00"; isOvertime := false |} ]
  ∧ shiftPairs logs_nested
    = [(Event in0900, out1700); (Event in1000_E2, out1100_E2)]
  ∧ ¬ byInDescending (shiftPairs logs_nested).
Proof.
  assert (shiftPairs logs_nested
          = [(Event in0900, out1700); (Event in1000_E2, out1100_E2)]) as Hps
    by (vm_compute; reflexivity).
  split_and!; [vm_compute; reflexivity|exact Hps|].
  rewrite Hps. unfold byInDescending. intros Hs.
  apply StronglySorted_cons in Hs as [Hhd _].
  apply Forall_cons in Hhd as [Hle _]. vm_compute in Hle. by apply Hle.
Qed.

(** C2, as stated, fails: an IN and an OUT within one second make a shift
    when the IN comes first in the input and none when it comes second. *)
Lemma calculateShifts_tie_order :
  logs_tie ≡ₚ logs_tie_swapped
  ∧ calculateShifts logs_tie
    = [ {| employee := "Employee E1"; date := "2024-03-04";
           in_ := "09:00:00"; out := "09:00:00";
           hours := "0.00"; isOvertime := false |} ]
  ∧ calculateShifts logs_tie_swapped = []
  ∧ calculateShifts logs_tie ≠ calculateShifts logs_tie_swapped.
Proof.
  assert (calculateShifts logs_tie_swapped = []) as Hswapped
    by (vm_compute; reflexivity).
  assert (calculateShifts logs_tie
          = [ {| employee := "Employee E1"; date := "2024-03-04";
                 in_ := "09:00:00"; out := "09:00:00";
                 hours := "0.00"; isOvertime := false |} ]) as Htie
    by (vm_compute; reflexivity).
  split_and!; [apply perm_swap|exact Htie|exact Hswapped|].
  rewrite Htie, Hswapped. discriminate.
Qed.

(** C5, as stated, fails: the duration a shift shows is text with two
    decimals, and a shift of eight hours and one second shows "8.00" and
    is flagged as overtime, while the shift of exactly eight hours shows
    the same text and is not.  The text is that of the double: an hour
    and eighteen seconds, 1.005 hours on paper, shows "1.00". *)
Lemma calculateShifts_hours_rounded :
  calculateShifts logs_eight_and_a_second
  = [ {| employee := "Employee E1"; date := "2024-03-04";
         in_ := "09:00:00"; out := "17:00:01";
         hours := "8.00"; isOvertime := true |} ]
  ∧ calculateShifts logs_eight
    = [ {| employee := "Employee E1"; date := "2024-03-04";
           in_ := "09:00:00"; out := "17:00:00";
           hours := "8.00"; isOvertime := false |} ]
  ∧ calculateShifts [in0900; out100018]
    = [ {| employee := "Employee E1"; date := "2024-03-04";
           in_ := "09:00:00"; out := "10:00:18";
           hours := "1.00"; isOvertime := false |} ].
Proof. split_and!; vm_compute; reflexivity. Qed.

(** C8, as stated, fails: the shift of an IN and an OUT within one second
    has duration zero and is returned like any other. *)
Lemma calculateShifts_zero_duration :
  shiftPairs logs_tie = [(Event in0900, out0900)]
  ∧ calculateShifts logs_tie
    = [ {| employee := "Employee E1"; date := "2024-03-04";
           in_ := "09:00:00"; out := "09:00:00";
           hours := "0.00"; isOvertime := false |} ]
  ∧ hoursOf (Event in0900) out0900 = DNum 0.
Proof. split_and!; vm_compute; reflexivity. Qed.

(** * Instances of the theorems *)

Lemma plainIds_logs_eight : plainIds logs_eight.
Proof. apply (bool_decide_unpack _). vm_compute. exact I. Qed.

Lemma calculateShifts_Permutation_witness :
  logs_eight ≡ₚ logs_eight_desc
  ∧ NoDup (timeOf <$> logs_eight)
  ∧ calculateShifts logs_eight = calculateShifts logs_eight_desc
  ∧ (∀ t, filter (λ log, timeOf log = t) logs_tie_then_out
          = filter (λ log, timeOf log = t) logs_out_then_tie)
  ∧ calculateShifts logs_tie_then_out = calculateShifts logs_out_then_tie.
Proof.
  assert (logs_eight ≡ₚ logs_eight_desc) as Hp by apply perm_swap.
  assert (NoDup (timeOf <$> logs_eight)) as Hnd.
  { apply (bool_decide_unpack _). vm_compute. exact I. }
  assert (∀ t, filter (λ log, timeOf log = t) logs_tie_then_out
               = filter (λ log, timeOf log = t) logs_out_then_tie) as Hties.
  { assert (timeOf in0900 ≠ timeOf out1700) as Hne1 by (vm_compute; discriminate).
    assert (timeOf out0900 ≠ timeOf out1700) as Hne2 by (vm_compute; discriminate).
    intros t. unfold logs_tie_then_out, logs_out_then_tie.
    rewrite !filter_cons, !filter_nil.
    repeat case_decide; congruence. }
  split_and!; [exact Hp|exact Hnd| |exact Hties|].
  - exact (proj1 (calculateShifts_Permutation logs_eight logs_eight_desc) Hp Hnd).
  - exact (proj2 (proj2 (proj2 (proj2
             (calculateShifts_Permutation logs_tie_then_out logs_out_then_tie))))
             Hties).
Defined.

Lemma calculateShifts_in_overwrites_witness :
  timeOf in0900 ≤ timeOf in1000
  ∧ lookupIn (scanLogs pair ([] ++ in0900 :: []) ([], emptyIn)).2 "E1"
    = Some (Event in0900)
  ∧ (scanLog pair (scanLogs pair ([] ++ in0900 :: []) ([], emptyIn)) in1000).1
    = (scanLogs pair ([] ++ in0900 :: []) ([], emptyIn)).1
  ∧ lookupIn
      (scanLog pair (scanLogs pair ([] ++ in0900 :: []) ([], emptyIn)) in1000).2
      "E1"
    = Some (Event in1000)
  ∧ (∀ log, (Event in0900, log) ∉ shiftPairs logs_double_in_desc)
  ∧ calculateShifts logs_double_in_desc
    = uncurry mkShift <$> shiftPairs logs_double_in_desc.
Proof.
  apply (proj1 calculateShifts_in_overwrites host logs_double_in_desc
           [] [] [out1700] in0900 in1000).
  - apply (NoDup_fmap_1 id). apply (bool_decide_unpack _). vm_compute. exact I.
  - vm_compute. reflexivity.
  - reflexivity.
  - reflexivity.
  - reflexivity.
  - constructor.
Defined.

Lemma calculateShifts_duration_nonneg_witness :
  ∃ inLog log,
    (Event inLog, log) ∈ shiftPairs logs_eight
    ∧ mkShift (Event in0900) out1700 = mkShift (Event inLog) log
    ∧ timeOf inLog ≤ timeOf log
    ∧ ∃ q, hoursOf (Event inLog) log = DNum q ∧ (0 <= q)%Q.
Proof.
  apply (calculateShifts_duration_nonneg logs_eight
           (mkShift (Event in0900) out1700) plainIds_logs_eight).
  replace (calculateShifts logs_eight) with [mkShift (Event in0900) out1700]
    by (vm_compute; reflexivity).
  left.
Defined.

Lemma calculateShifts_overtime_witness :
  ∃ inLog log,
    (Event inLog, log) ∈ shiftPairs logs_eight_and_a_second
    ∧ mkShift (Event in0900) out170001 = mkShift (Event inLog) log
    ∧ hours (mkShift (Event in0900) out170001)
      = toFixed (hoursOf (Event inLog) log) 2
    ∧ (isOvertime (mkShift (Event in0900) out170001) = true
       ↔ 8 * (1000 * 60 * 60) < timeOf log - timeOf inLog)
    ∧ (timeOf log - timeOf inLog = 8 * (1000 * 60 * 60) →
       isOvertime (mkShift (Event in0900) out170001) = false)
    ∧ (timeOf log - timeOf inLog < 9007199254740992 →
       ∃ n : Z,
         hours (mkShift (Event in0900) out170001) = fixedString n 2
         ∧ (inject_Z n / 100
              - inject_Z (timeOf log - timeOf inLog) / inject_Z (1000 * 60 * 60)
            <= (1 # 200) + (1 # 3600000))%Q
         ∧ (inject_Z (timeOf log - timeOf inLog) / inject_Z (1000 * 60 * 60)
              - inject_Z n / 100
            <= (1 # 200) + (1 # 3600000))%Q).
Proof.
  apply (calculateShifts_overtime logs_eight_and_a_second
           (mkShift (Event in0900) out170001)).
  - apply (bool_decide_unpack _). vm_compute. exact I.
  - replace (calculateShifts logs_eight_and_a_second)
      with [mkShift (Event in0900) out170001] by (vm_compute; reflexivity).
    left.
Defined.

(** * The geofence evaluator *)
Section GeofenceFacts.
Local Open Scope R_scope.

Lemma cos_cos_mid (p m : R) :
  cos (p - m) * cos (p + m) = (cos p)² - (sin m)².
Proof.
  rewrite cos_minus, cos_plus.
  pose proof (sin2_cos2 p) as Hp. pose proof (sin2_cos2 m) as Hm.
  unfold Rsqr in *. nra.
Qed.

Lemma haversine_term_bounds (φ1 φ2 Δλ : R) :
  0 <= hav (φ2 - φ1) + cos φ1 * cos φ2 * hav Δλ <= 1.
Proof.
  unfold hav.
  set (m := (φ2 - φ1) / 2). set (p := (φ1 + φ2) / 2).
  replace φ1 with (p - m) by (unfold p, m; lra).
  replace φ2 with (p + m) by (unfold p, m; lra).
  rewrite cos_cos_mid.
  pose proof (sin2_cos2 p) as Hp. pose proof (sin2_cos2 m) as Hm.
  pose proof (sin2_cos2 (Δλ / 2)) as Hl.
  pose proof (Rle_0_sqr (sin p)). pose proof (Rle_0_sqr (cos p)).
  pose proof (Rle_0_sqr (sin m)). pose proof (Rle_0_sqr (cos m)).
  pose proof (Rle_0_sqr (sin (Δλ / 2))). pose proof (Rle_0_sqr (cos (Δλ / 2))).
  generalize dependent (sin p)². generalize dependent (cos p)².
  generalize dependent (sin m)². generalize dependent (cos m)².
  generalize dependent (sin (Δλ / 2))². generalize dependent (cos (Δλ / 2))².
  intros. nra.
Qed.

Lemma atan2_asin (a : R) :
  0 <= a <= 1 → atan2 (sqrt a) (sqrt (1 - a)) = asin (sqrt a).
Proof.
  intros [H0 H1]. unfold atan2.
  destruct (Req_dec a 1) as [->|Hne].
  - replace (1 - 1) with 0 by lra. rewrite sqrt_0, sqrt_1, asin_1.
    destruct (Rlt_dec 0 0) as [?|_]; [lra|].
    destruct (Rlt_dec 0 1) as [_|?]; [done|lra].
  - assert (0 < sqrt (1 - a)) by (apply sqrt_lt_R0; lra).
    destruct (Rlt_dec 0 (sqrt (1 - a))) as [_|?]; [|lra].
    assert (sqrt a < 1).
    { rewrite <- sqrt_1. apply sqrt_lt_1_alt. lra. }
    pose proof (sqrt_pos a).
    rewrite asin_atan by lra. by rewrite Rsqr_sqrt.
Qed.

Lemma getDistanceR_haversine (lat1 lon1 lat2 lon2 : R) :
  getDistanceR lat1 lon1 lat2 lon2 = haversineDistance lat1 lon1 lat2 lon2.
Proof.
  unfold getDistanceR, haversineDistance, earthRadius. cbv zeta.
  set (a := sin _ * sin _ + _).
  assert (a = hav (radians lat2 - radians lat1)
              + cos (radians lat1) * cos (radians lat2)
                * hav (radians lon2 - radians lon1)) as Ha.
  { unfold a, hav, radians, Rsqr.
    replace (lat2 * PI / 180 - lat1 * PI / 180)
      with ((lat2 - lat1) * PI / 180) by lra.
    replace (lon2 * PI / 180 - lon1 * PI / 180)
      with ((lon2 - lon1) * PI / 180) by lra.
    ring. }
  rewrite atan2_asin by (rewrite Ha; apply haversine_term_bounds).
  rewrite Ha. lra.
Qed.

Lemma getDistanceR_same (lat lon : R) : getDistanceR lat lon lat lon = 0.
Proof.
  rewrite getDistanceR_haversine. unfold haversineDistance, hav.
  rewrite !Rminus_diag. replace (0 / 2) with 0 by lra.
  rewrite sin_0. unfold Rsqr. rewrite !Rmult_0_r, Rplus_0_r, sqrt_0, asin_0.
  lra.
Qed.

Lemma getDistanceR_wrapped :
  getDistanceR (51.5074 + 360) (-0.1278) 51.5074 (-0.1278) = 0.
Proof.
  rewrite getDistanceR_haversine. unfold haversineDistance, hav, radians.
  replace ((51.5074 * PI / 180 - (51.5074 + 360) * PI / 180) / 2)
    with (- PI) by lra.
  rewrite Rminus_diag. replace (0 / 2) with 0 by lra.
  rewrite sin_neg, sin_PI, sin_0. unfold Rsqr.
  rewrite Ropp_0, !Rmult_0_r, Rplus_0_r, sqrt_0, asin_0. lra.
Qed.

(** A latitude one full turn away from the office's is outside the valid
    range and is classified OK. *)
Lemma onPosition_wrapped_latitude (st : ClockState) :
  gpsStatus (onPosition {| lat := Num (51.5074 + 360); lng := Num (-0.1278) |} st)
  = OK.
Proof.
  unfold onPosition. simpl. rewrite getDistanceR_wrapped.
  destruct (Rle_dec 0 200) as [_|Hn]; [done|]. exfalso. apply Hn. lra.
Qed.

Lemma getDistance_NaN (c : Coords) (lat2 lon2 : number) :
  lat c = NaN ∨ lng c = NaN → getDistance (lat c) (lng c) lat2 lon2 = NaN.
Proof. destruct c as [[|x] [|y]]; simpl; intros [?|?]; done. Qed.

Lemma geoRun_snoc (evs : list GeoEvent) (ev : GeoEvent) :
  geoRun (evs ++ [ev]) = geoStep (geoRun evs) ev.
Proof. unfold geoRun. by rewrite fold_left_app. Qed.

Lemma fold_geoStep_location_None (evs : list GeoEvent) (st : ClockState) :
  location (fold_left geoStep evs st) = None →
  location st = None
  ∧ gpsStatus (fold_left geoStep evs st)
    = match evs with [] => gpsStatus st | _ => OutOfRange end.
Proof.
  revert st. induction evs as [|ev evs IH]; intros st Hloc; [done|].
  simpl in *. destruct (IH _ Hloc) as [Hst Hgps].
  destruct ev as [coords|]; [done|]. split; [done|].
  rewrite Hgps. by destruct evs.
Qed.

(** C7 (amended): the status is Searching until a geolocation callback
    has run and Out of Range once acquisition has failed; while no point
    is held it is one of these two and never OK; a point with a NaN
    coordinate is classified Out of Range.  Every case yields a status:
    the callbacks are total. *)
Theorem geoRun_status (evs : list GeoEvent) :
  gpsStatus (geoRun []) = Searching
  ∧ gpsStatus (geoRun (evs ++ [PositionError])) = OutOfRange
  ∧ (location (geoRun evs) = None →
     gpsStatus (geoRun evs)
     = match evs with [] => Searching | _ => OutOfRange end)
  ∧ (∀ coords, lat coords = NaN ∨ lng coords = NaN →
     gpsStatus (geoRun (evs ++ [Position coords])) = OutOfRange).
Proof.
  split_and!.
  - done.
  - by rewrite geoRun_snoc.
  - intros Hloc. unfold geoRun in *.
    by apply fold_geoStep_location_None in Hloc as [_ ->].
  - intros coords Hnan. rewrite geoRun_snoc. simpl. unfold onPosition.
    by rewrite getDistance_NaN.
Qed.

(** C7, as stated, fails: after a failed acquisition no point is held and
    the status is Out of Range, not Searching; and a point whose latitude
    is outside the valid range can be classified OK. *)
Lemma geoRun_error_not_searching :
  location (geoRun [PositionError]) = None
  ∧ gpsStatus (geoRun [PositionError]) = OutOfRange
  ∧ gpsStatus (geoRun [PositionError]) ≠ Searching
  ∧ gpsStatus (geoRun [Position {| lat := Num 411.5074; lng := Num (-0.1278) |}])
    = OK.
Proof.
  split_and!; [done..|].
  replace 411.5074 with (51.5074 + 360) by lra.
  apply onPosition_wrapped_latitude.
Qed.

Lemma geoRun_status_witness :
  location (geoRun [PositionError; PositionError]) = None
  ∧ gpsStatus (geoRun [PositionError; PositionError]) = OutOfRange
  ∧ gpsStatus (geoRun ([PositionError] ++ [Position {| lat := NaN; lng := Num 0 |}]))
    = OutOfRange.
Proof.
  assert (location (geoRun [PositionError; PositionError]) = None) as Hloc
    by reflexivity.
  destruct (geoRun_status [PositionError; PositionError]) as (_ & _ & Hnone & _).
  destruct (geoRun_status [PositionError]) as (_ & _ & _ & Hnan).
  split_and!; [exact Hloc|exact (Hnone Hloc)|].
  apply Hnan. left. reflexivity.
Defined.
End GeofenceFacts.

(** * Reconstruction on the store *)
Section SortMap.
Context {A B : Type} (f : A → B) (cmp : B → B → Z).

Lemma insert_sorted_fmap (x : A) (l : list A) :
  f <$> insert_sorted (λ a b, cmp (f a) (f b)) x l
  = insert_sorted cmp (f x) (f <$> l).
Proof.
  induction l as [|y l IH]; [done|].
  rewrite fmap_cons. cbn [insert_sorted].
  case_decide; rewrite ?fmap_cons; [done|]. by rewrite IH.
Qed.

Lemma sort_fmap (l : list A) :
  f <$> sort (λ a b, cmp (f a) (f b)) l = sort cmp (f <$> l).
Proof.
  induction l as [|x l IH]; [done|].
  rewrite fmap_cons. unfold sort in *. cbn [foldr].
  by rewrite insert_sorted_fmap, IH.
Qed.
End SortMap.

Section StoreFacts.
Context `{Host}.

Implicit Types (h : gmap ref Obj) (r : ref) (elems : list ref).
Implicit Types (ls : list AttendanceLog).

Lemma holdsLogs_weaken h h' elems ls :
  h ⊆ h' → holdsLogs h elems ls → holdsLogs h' elems ls.
Proof.
  intros Hsub HF. eapply Forall2_impl; [exact HF|].
  intros r log Hr. simpl in *. exact (lookup_weaken _ _ _ _ Hr Hsub).
Qed.

Lemma mapM_getLog h elems ls :
  holdsLogs h elems ls → mapM getLog elems h = Some (ls, h).
Proof.
  induction 1 as [|r log elems ls Hr _ IH]; [done|].
  simpl. unfold bind, getLog at 1. by rewrite Hr, IH.
Qed.

Lemma mapM_getShift h elems (ss : list Shift) :
  Forall2 (λ r s, h !! r = Some (ObjShift s)) elems ss →
  mapM getShift elems h = Some (ss, h).
Proof.
  induction 1 as [|r s elems ss Hr _ IH]; [done|].
  simpl. unfold bind, getShift at 1. by rewrite Hr, IH.
Qed.

Lemma fresh_lookup h : h !! fresh (dom h) = None.
Proof. apply not_elem_of_dom, is_fresh. Qed.

Lemma fresh_ne h r o : h !! r = Some o → r ≠ fresh (dom h).
Proof. intros Hr ->. by rewrite fresh_lookup in Hr. Qed.

(** Reading [lastIn[key]] on the store finds what [lookupIn] finds. *)
Lemma readIn_lookupIn h0 h lastIn fields prototype (pending : LastIn) key :
  h0 ⊆ h →
  h !! lastIn = Some (ObjRecord fields prototype) →
  (∀ k, match fields !! k with
        | Some r => ∃ log, h0 !! r = Some (ObjLog log)
                           ∧ own pending !! k = Some log
        | None => own pending !! k = None
        end) →
  match prototype with
  | Some r => ∃ log, h0 !! r = Some (ObjLog log) ∧ proto pending = Some log
  | None => proto pending = None
  end →
  ∃ found,
    readIn lastIn key h = Some (found, h)
    ∧ match found with
      | Some v =>
          ∃ inLog, readInValue v h = Some (inLog, h)
                   ∧ lookupIn pending key = Some inLog
      | None => lookupIn pending key = None
      end.
Proof.
  intros Hsub Hrec Hown Hproto.
  unfold readIn, lookupIn, bind, getRecord. rewrite Hrec. simpl.
  destruct (decide (key = "__proto__")) as [->|Hkey].
  - eexists. split; [done|]. destruct prototype as [p|].
    + destruct Hproto as (e & Hp & ->). exists (Event e). split; [|done].
      simpl. unfold bind, getLog.
      by rewrite (lookup_weaken _ _ _ _ Hp Hsub).
    + rewrite Hproto. by exists NotEvent.
  - specialize (Hown key). destruct (fields !! key) as [r|].
    + destruct Hown as (e & Hr & ->). eexists. split; [done|].
      exists (Event e). split; [|done]. simpl. unfold bind, getLog.
      by rewrite (lookup_weaken _ _ _ _ Hr Hsub).
    + rewrite Hown. destruct prototype as [p|].
      * destruct Hproto as (e & Hp & ->). unfold bind, getLog.
        rewrite (lookup_weaken _ _ _ _ Hp Hsub). simpl.
        eexists. split; [done|].
        destruct (inheritedTruthy (Some e) key); [|done]. by exists NotEvent.
      * rewrite Hproto. simpl. eexists. split; [done|].
        destruct (inheritedTruthy None key); [|done]. by exists NotEvent.
Qed.

Lemma scanRef_step h0 shifts lastIn h st r log :
  storeInv h0 shifts lastIn h st →
  h0 !! r = Some (ObjLog log) →
  ∃ h', scanRef shifts lastIn r h = Some ((), h')
        ∧ storeInv h0 shifts lastIn h' (scanLog mkShift st log).
Proof.
  destruct st as [ss pending].
  intros [Hsub Hs0 Hl0 (pushed & Hpushed & Hss)
            (fields & prototype & Hfields & Hown & Hproto)] Hr.
  simpl in *.
  assert (h !! r = Some (ObjLog log)) as Hr' by exact (lookup_weaken _ _ _ _ Hr Hsub).
  assert (shifts ≠ lastIn) as Hne by congruence.
  unfold scanRef, bind, getLog. rewrite Hr'.
  destruct (type log) eqn:Hty.
  - unfold writeIn, bind, getRecord, setRecord, assignIn. rewrite Hfields. simpl.
    destruct (decide (employee_id log = "__proto__")) as [Hk|Hk].
    + eexists; split; [done|]. split; simpl; [|done..| |].
      * by apply insert_subseteq_r.
      * exists pushed. rewrite lookup_insert_ne by done. split; [done|].
        eapply Forall2_impl; [exact Hss|]. intros r' s Hr''. simpl in *.
        assert (lastIn ≠ r') by congruence.
        by rewrite lookup_insert_ne by done.
      * exists fields, (Some r). rewrite lookup_insert_eq.
        split_and!; [done..|]. by exists log.
    + eexists; split; [done|]. split; simpl; [|done..| |].
      * by apply insert_subseteq_r.
      * exists pushed. rewrite lookup_insert_ne by done. split; [done|].
        eapply Forall2_impl; [exact Hss|]. intros r' s Hr''. simpl in *.
        assert (lastIn ≠ r') by congruence.
        by rewrite lookup_insert_ne by done.
      * exists (<[employee_id log := r]> fields), prototype.
        rewrite lookup_insert_eq. split_and!; [done| |done]. intros k.
        destruct (decide (k = employee_id log)) as [->|Hk'].
        -- rewrite !lookup_insert_eq. eauto.
        -- rewrite !lookup_insert_ne by done. apply Hown.
  - destruct (readIn_lookupIn h0 h lastIn fields prototype pending
                (employee_id log) Hsub Hfields Hown Hproto)
      as (found & -> & Hfound).
    destruct found as [v|].
    + destruct Hfound as (inLog & -> & ->).
      unfold alloc, getArray, setArray, deleteKey, bind, getRecord, setRecord.
      set (rs := fresh (dom h)).
      assert (shifts ≠ rs) as Hs_rs by (by eapply fresh_ne).
      assert (lastIn ≠ rs) as Hl_rs by (by eapply fresh_ne).
      rewrite (lookup_insert_ne h rs shifts) by done. rewrite Hpushed.
      rewrite lookup_insert_ne by done. rewrite lookup_insert_ne by done.
      rewrite Hfields. simpl.
      eexists; split; [done|]. split; simpl; [|done..| |].
      * apply insert_subseteq_r; [done|]. apply insert_subseteq_r; [done|].
        apply insert_subseteq_r; [|done].
        destruct (h0 !! rs) as [o|] eqn:Hrs; [|done].
        apply (lookup_weaken _ _ _ _ Hrs) in Hsub.
        unfold rs in Hsub. by rewrite fresh_lookup in Hsub.
      * exists (pushed ++ [rs]). rewrite lookup_insert_ne by done.
        rewrite lookup_insert_eq. split; [done|].
        apply Forall2_app.
        -- eapply Forall2_impl; [exact Hss|]. intros r' s Hr''. simpl in *.
           assert (rs ≠ r') by (symmetry; by eapply fresh_ne).
           assert (shifts ≠ r') by congruence.
           assert (lastIn ≠ r') by congruence.
           by rewrite !lookup_insert_ne by done.
        -- repeat constructor.
           rewrite !lookup_insert_ne by done. apply lookup_insert_eq.
      * exists (delete (employee_id log) fields), prototype.
        rewrite lookup_insert_eq. split_and!; [done| |done]. intros k.
        destruct (decide (k = employee_id log)) as [->|Hk].
        -- by rewrite !lookup_delete_eq.
        -- rewrite !lookup_delete_ne by done. apply Hown.
    + rewrite Hfound. eexists; split; [done|]. split; simpl; eauto.
Qed.

Lemma forEach_scanRef h0 shifts lastIn elems ls h st :
  holdsLogs h0 elems ls →
  storeInv h0 shifts lastIn h st →
  ∃ h', forEach (scanRef shifts lastIn) elems h = Some ((), h')
        ∧ storeInv h0 shifts lastIn h' (scanLogs mkShift ls st).
Proof.
  intros Hlogs. revert h st.
  induction Hlogs as [|r log elems ls Hr _ IH]; intros h st Hinv; [by exists h|].
  destruct (scanRef_step _ _ _ _ _ _ _ Hinv Hr) as (h1 & Hstep & Hinv1).
  destruct (IH _ _ Hinv1) as (h' & Hrun & Hinv').
  exists h'. split; [|done]. simpl. unfold bind. by rewrite Hstep.
Qed.

Lemma holdsLogs_zip h elems ls :
  holdsLogs h elems ls →
  Forall (λ p, h !! p.1 = Some (ObjLog p.2)) (zip elems ls).
Proof. induction 1; by constructor. Qed.

Lemma holdsLogs_unzip h (l : list (ref * AttendanceLog)) :
  Forall (λ p, h !! p.1 = Some (ObjLog p.2)) l → holdsLogs h l.*1 l.*2.
Proof. induction 1; by constructor. Qed.

(** The references of the sorted copy refer, in order, to the sorted
    events. *)
Lemma holdsLogs_sort h elems ls :
  holdsLogs h elems ls →
  holdsLogs h (sort (λ a b, byTimestamp a.2 b.2) (zip elems ls)).*1
    (sortedLogs ls).
Proof.
  intros Hlogs. unfold sortedLogs.
  assert (ls = (zip elems ls).*2) as Hls.
  { symmetry. apply snd_zip. by rewrite (Forall2_length _ _ _ Hlogs). }
  rewrite Hls at 2. rewrite <- (sort_fmap snd byTimestamp).
  apply holdsLogs_unzip. apply holdsLogs_zip in Hlogs.
  rewrite Forall_forall in *. intros p Hp. apply Hlogs.
  by rewrite sort_Permutation in Hp.
Qed.

(** C10: a call of [calculateShifts] on the array [logs] returns its
    shifts and leaves every object that existed before the call as it was:
    the array holds the same references in the same order and every event
    object is unchanged.  The sort reorders a copy, and the scan writes
    only to objects created by the call. *)
Theorem calculateShiftsOn_frame h logs elems ls :
  h !! logs = Some (ObjArray elems) →
  holdsLogs h elems ls →
  ∃ shifts h',
    calculateShiftsOn logs h = Some (shifts, h')
    ∧ h ⊆ h'
    ∧ h' !! logs = Some (ObjArray elems)
    ∧ holdsLogs h' elems ls
    ∧ readShifts shifts h' = Some (calculateShifts ls, h').
Proof.
  intros Hlogs Hheld.
  unfold calculateShiftsOn, bind, alloc.
  set (r1 := fresh (dom h)). set (h1 := <[r1 := ObjArray []]> h).
  assert (h !! r1 = None) as Hr1 by apply fresh_lookup.
  assert (h ⊆ h1) as Hsub1 by (by apply insert_subseteq).
  unfold getArray at 1.
  rewrite (lookup_weaken _ _ _ _ Hlogs Hsub1).
  set (r2 := fresh (dom h1)). set (h2 := <[r2 := ObjArray elems]> h1).
  assert (h1 !! r2 = None) as Hr2 by apply fresh_lookup.
  assert (h1 ⊆ h2) as Hsub2 by (by apply insert_subseteq).
  assert (h ⊆ h2) as Hsub02 by (by etrans).
  unfold sortInPlace, bind, getArray at 1. unfold h2 at 1.
  rewrite lookup_insert_eq. fold h2.
  rewrite (mapM_getLog h2 elems ls) by (by eapply holdsLogs_weaken).
  unfold setArray.
  set (sorted := (sort _ (zip elems ls)).*1).
  set (h3 := <[r2 := ObjArray sorted]> h2).
  assert (h ⊆ h3) as Hsub03.
  { apply insert_subseteq_r; [|done].
    destruct (h !! r2) as [o|] eqn:Ho; [|done].
    apply (lookup_weaken _ _ _ _ Ho) in Hsub1. congruence. }
  set (r3 := fresh (dom h3)). set (h4 := <[r3 := ObjRecord ∅ None]> h3).
  assert (h3 !! r3 = None) as Hr3 by apply fresh_lookup.
  assert (h !! r3 = None) as Hr03.
  { destruct (h !! r3) as [o|] eqn:Ho; [|done].
    apply (lookup_weaken _ _ _ _ Ho) in Hsub03. congruence. }
  assert (r2 ≠ r3) as Hr23.
  { intros Heq. rewrite <- Heq in Hr3. unfold h3 in Hr3.
    by rewrite lookup_insert_eq in Hr3. }
  assert (r1 ≠ r2) as Hr12.
  { intros Heq. rewrite <- Heq in Hr2. unfold h1 in Hr2.
    by rewrite lookup_insert_eq in Hr2. }
  assert (h3 !! r1 = Some (ObjArray [])) as Hh3r1.
  { unfold h3, h2, h1. rewrite !lookup_insert_ne by done.
    apply lookup_insert_eq. }
  assert (r1 ≠ r3) as Hr13 by congruence.
  unfold getArray at 1. unfold h4 at 1.
  rewrite lookup_insert_ne by done. unfold h3 at 1.
  rewrite lookup_insert_eq. fold h3. fold h4.
  destruct (forEach_scanRef h r1 r3 sorted (sortedLogs ls) h4 ([], emptyIn))
    as (h5 & -> & [Hsub5 _ _ (pushed & Hpushed & Hshifts) _]).
  { by apply holdsLogs_sort. }
  { split; simpl; [|done..| |].
    - apply insert_subseteq_r; done.
    - exists []. unfold h4. rewrite lookup_insert_ne by done.
      split; [done|constructor].
    - exists ∅, None. unfold h4. rewrite lookup_insert_eq.
      split_and!; [done| |done]. intros k. by rewrite !lookup_empty. }
  unfold getArray at 1. rewrite Hpushed. unfold ret.
  set (h6 := <[r1 := ObjArray (reverse pushed)]> h5).
  assert (h ⊆ h6) as Hsub6 by (by apply insert_subseteq_r).
  exists r1, h6. split_and!; [done..| | |].
  - exact (lookup_weaken _ _ _ _ Hlogs Hsub6).
  - by eapply holdsLogs_weaken.
  - unfold readShifts, bind, getArray. unfold h6 at 1.
    rewrite lookup_insert_eq. fold h6. apply mapM_getShift.
    unfold calculateShifts, reconstruct. apply Forall2_reverse.
    eapply Forall2_impl; [exact Hshifts|]. intros r s Hr. simpl in *.
    assert (r1 ≠ r) by congruence.
    unfold h6. by rewrite lookup_insert_ne by done.
Qed.
End StoreFacts.

Lemma calculateShiftsOn_frame_witness :
  ∃ shifts h',
    calculateShiftsOn 1%positive store_eight = Some (shifts, h')
    ∧ store_eight ⊆ h'
    ∧ h' !! 1%positive = Some (ObjArray [2; 3]%positive)
    ∧ holdsLogs h' [2; 3]%positive logs_eight_desc
    ∧ readShifts shifts h' = Some (calculateShifts logs_eight_desc, h').
Proof.
  apply (calculateShiftsOn_frame store_eight 1%positive [2; 3]%positive
           logs_eight_desc).
  - reflexivity.
  - repeat constructor.
Defined.
(** * Further properties of the distance *)
Section DistanceFacts.
Local Open Scope R_scope.

Lemma hav_opp (θ : R) : hav (- θ) = hav θ.
Proof.
  unfold hav. replace (- θ / 2) with (- (θ / 2)) by lra.
  by rewrite sin_neg, <- Rsqr_neg.
Qed.

Lemma haversineDistance_sym (lat1 lon1 lat2 lon2 : R) :
  haversineDistance lat1 lon1 lat2 lon2 = haversineDistance lat2 lon2 lat1 lon1.
Proof.
  unfold haversineDistance.
  rewrite <- (hav_opp (radians lat1 - radians lat2)).
  rewrite <- (hav_opp (radians lon1 - radians lon2)).
  replace (- (radians lat1 - radians lat2)) with (radians lat2 - radians lat1) by lra.
  replace (- (radians lon1 - radians lon2)) with (radians lon2 - radians lon1) by lra.
  by rewrite (Rmult_comm (cos (radians lat2))).
Qed.

(** X1: the distance does not depend on which of the two points comes
    first, on reals and on numbers with [NaN]. *)
Theorem getDistance_sym (lat1 lon1 lat2 lon2 : number) :
  getDistance lat1 lon1 lat2 lon2 = getDistance lat2 lon2 lat1 lon1.
Proof.
  destruct lat1 as [|a], lon1 as [|b], lat2 as [|c], lon2 as [|d]; simpl; try done.
  by rewrite !getDistanceR_haversine, haversineDistance_sym.
Qed.

Lemma geoRun_OK_inv (evs : list GeoEvent) :
  gpsStatus (geoRun evs) = OK →
  ∃ coords,
    location (geoRun evs) = Some coords
    ∧ number_le (getDistance (lat coords) (lng coords)
                   (lat OFFICE_COORDS) (lng OFFICE_COORDS))
        GEOFENCE_RADIUS = true.
Proof.
  induction evs as [|ev evs IH] using rev_ind; [done|].
  rewrite geoRun_snoc. destruct ev as [coords|]; simpl; [|done].
  intros Hok. exists coords. split; [done|].
  by destruct (number_le _ _).
Qed.

(** X4: a clock request is handed to [fetch] exactly when no camera
    error is set and the capture of the photo did not throw; it carries
    the status the geolocation callbacks left, and, whatever they
    received, a request that says OK carries a latitude and a longitude
    that are numbers. *)
Theorem clockBody_OK (evs : list GeoEvent) (cameraError : option string)
    (user : User.t) (type : LogType) (capture : option (option string)) :
  (is_Some (clockBody cameraError user (geoRun evs) type capture)
   ↔ default false (truthyString <$> cameraError) = false ∧ is_Some capture)
  ∧ ∀ body,
      clockBody cameraError user (geoRun evs) type capture = Some body →
      ClockRequest.gpsStatus body = gpsStatus (geoRun evs)
      ∧ (ClockRequest.gpsStatus body = OK →
         ∃ x y,
           ClockRequest.latitude body = Some (Num x)
           ∧ ClockRequest.longitude body = Some (Num y)).
Proof.
  unfold clockBody. split.
  { destruct (default false _), capture; simpl; split;
      try done; try (by intros [? ?]); try (by intros [[? ?] ?]);
      try (by intros [? [? ?]]); by intros [_ [? ?]]. }
  intros body Hbody.
  destruct (default false _); [done|]. destruct capture as [photo|]; [|done].
  injection Hbody as <-. simpl. split; [done|]. intros Hok.
  destruct (geoRun_OK_inv _ Hok) as ([[|x] [|y]] & -> & Hle); try done.
  by exists x, y.
Qed.

Lemma clockBody_OK_witness :
  ∃ x y,
    Some (Num x) = Some (Num 51.5074)
    ∧ Some (Num y) = Some (Num (-0.1278)).
Proof.
  pose (user := {| User.id := "EMP001"; User.name := "John Doe";
                   User.isAdmin := false |}).
  destruct (clockBody_OK [Position OFFICE_COORDS] None user IN (Some None))
    as [_ Hbody].
  destruct (Hbody _ eq_refl) as [_ Hok].
  destruct Hok as (x & y & Hx & Hy).
  - simpl. rewrite getDistanceR_same.
    destruct (Rle_dec 0 200) as [_|Hn]; [done|]. exfalso. apply Hn. lra.
  - exists x, y. simpl in Hx, Hy. by rewrite Hx, Hy.
Defined.
End DistanceFacts.

(** * Further properties of the sort *)
Section SortMore.
Context {A : Type} (key : A → Z) (cmp : A → A → Z).
Hypothesis cmp_key : ∀ a b, cmp a b ≤ 0 ↔ key a ≤ key b.

Lemma insert_sorted_front x l :
  Forall (λ y, key x ≤ key y) l → insert_sorted cmp x l = x :: l.
Proof.
  destruct 1 as [|y l Hy _]; simpl; [done|].
  case_decide as Hc; [done|]. by rewrite cmp_key in Hc.
Qed.

Lemma insert_sorted_filter (P : A → Prop) `{∀ x, Decision (P x)} x l :
  StronglySorted (le_on key) l →
  filter P (insert_sorted cmp x l)
  = if decide (P x) then insert_sorted cmp x (filter P l) else filter P l.
Proof.
  induction 1 as [|y l Hl IH Hy]; simpl.
  { rewrite filter_cons, filter_nil. by case_decide. }
  destruct (decide (cmp x y ≤ 0)) as [Hxy|Hxy].
  - rewrite (filter_cons _ x). destruct (decide (P x)) as [HPx|HPx]; [|done].
    rewrite (filter_cons _ y). destruct (decide (P y)) as [HPy|HPy].
    + simpl. by rewrite decide_True by done.
    + rewrite insert_sorted_front; [done|].
      apply Forall_forall. intros z [_ Hz]%list_elem_of_filter.
      rewrite Forall_forall in Hy. specialize (Hy z Hz).
      apply cmp_key in Hxy. unfold le_on in Hy. lia.
  - rewrite (filter_cons _ y), IH.
    destruct (decide (P x)) as [HPx|HPx]; [|done].
    rewrite (filter_cons _ y). destruct (decide (P y)) as [HPy|HPy]; [|done].
    simpl. by rewrite decide_False by done.
Qed.

(** Keeping some of the elements and sorting can be done in any order. *)
Lemma sort_filter (P : A → Prop) `{∀ x, Decision (P x)} l :
  filter P (sort cmp l) = sort cmp (filter P l).
Proof.
  induction l as [|x l IH]; [done|].
  unfold sort in *. cbn [foldr].
  rewrite insert_sorted_filter by apply (sort_StronglySorted key cmp cmp_key).
  rewrite filter_cons. destruct (decide (P x)); [|done].
  cbn [foldr]. by rewrite IH.
Qed.

Lemma insert_sorted_app_l x l1 l2 :
  Forall (λ y, key x ≤ key y) l2 →
  insert_sorted cmp x (l1 ++ l2) = insert_sorted cmp x l1 ++ l2.
Proof.
  intros Hl2. induction l1 as [|y l1 IH]; simpl.
  - by apply insert_sorted_front.
  - case_decide; [done|]. by rewrite IH.
Qed.

Lemma insert_sorted_app_r x l1 l2 :
  Forall (λ y, key y < key x) l1 →
  insert_sorted cmp x (l1 ++ l2) = l1 ++ insert_sorted cmp x l2.
Proof.
  induction 1 as [|y l1 Hy _ IH]; simpl; [done|].
  case_decide as Hc; [|by rewrite IH]. rewrite cmp_key in Hc. lia.
Qed.

(** Sorting older elements followed by newer ones sorts each part. *)
Lemma sort_app_le l1 l2 :
  (∀ a b, a ∈ l1 → b ∈ l2 → key a ≤ key b) →
  sort cmp (l1 ++ l2) = sort cmp l1 ++ sort cmp l2.
Proof.
  intros Hle. induction l1 as [|x l1 IH]; [done|].
  unfold sort in *. cbn [app foldr]. rewrite IH.
  - apply insert_sorted_app_l. apply Forall_forall. intros y Hy.
    apply Hle; [by left|].
    by rewrite <- (sort_Permutation cmp l2).
  - intros a b Ha Hb. apply Hle; [by right|done].
Qed.

(** Sorting newer elements followed by strictly older ones puts the older
    part first. *)
Lemma sort_app_gt l1 l2 :
  (∀ a b, a ∈ l1 → b ∈ l2 → key a < key b) →
  sort cmp (l2 ++ l1) = sort cmp l1 ++ sort cmp l2.
Proof.
  intros Hlt. induction l2 as [|x l2 IH]; [by rewrite app_nil_r|].
  unfold sort in *. cbn [app foldr]. rewrite IH.
  - apply insert_sorted_app_r. apply Forall_forall. intros y Hy.
    apply Hlt; [|by left].
    by rewrite <- (sort_Permutation cmp l1).
  - intros a b Ha Hb. apply Hlt; [done|by right].
Qed.
End SortMore.

(** * Further properties of the reconstruction *)
Section ReconstructorMore.
Context `{Host}.

Implicit Types (log : AttendanceLog) (logs : list AttendanceLog).
Implicit Types (lastIn : LastIn).
Implicit Types (ps : list (InValue * AttendanceLog)).

Lemma countOf_cons k log logs :
  countOf k (log :: logs)
  = ((if decide (type log = k) then 1 else 0) + countOf k logs)%nat.
Proof. unfold countOf. rewrite filter_cons. by case_decide. Qed.

Lemma countOf_total logs : (countOf IN logs + countOf OUT logs = length logs)%nat.
Proof.
  induction logs as [|log logs IH]; [done|].
  rewrite !countOf_cons. simpl. destruct (type log); simpl; lia.
Qed.

Lemma countOf_Permutation k logs1 logs2 :
  logs1 ≡ₚ logs2 → countOf k logs1 = countOf k logs2.
Proof. intros Hp. unfold countOf. by rewrite Hp. Qed.

Lemma plainIds_sortedLogs logs : plainIds logs → plainIds (sortedLogs logs).
Proof.
  unfold plainIds. rewrite !Forall_forall. intros Hl x Hx. apply Hl.
  by rewrite <- (sortedLogs_Permutation logs).
Qed.

(** Every OUT pushes at most one shift. *)
Lemma scanLogs_count_out logs ps lastIn :
  (length (scanLogs pair logs (ps, lastIn)).1 ≤ length ps + countOf OUT logs)%nat.
Proof.
  revert ps lastIn. induction logs as [|log logs IH]; intros ps lastIn.
  { unfold countOf. simpl. lia. }
  rewrite scanLogs_cons, countOf_cons. unfold scanLog.
  destruct (type log) eqn:Hty; simpl.
  - specialize (IH ps (assignIn lastIn (employee_id log) log)). lia.
  - destruct (lookupIn lastIn (employee_id log)) as [inLog|].
    + specialize (IH (ps ++ [(inLog, log)]) (deleteIn lastIn (employee_id log))).
      rewrite length_app in IH. simpl in IH. lia.
    + specialize (IH ps lastIn). lia.
Qed.

(** With plain identifiers every shift uses up an IN that was held. *)
Lemma scanLogs_count_in logs ps lastIn :
  plainIds logs → proto lastIn = None →
  (length (scanLogs pair logs (ps, lastIn)).1
   + size (own (scanLogs pair logs (ps, lastIn)).2)
   ≤ length ps + size (own lastIn) + countOf IN logs)%nat.
Proof.
  intros Hl. revert ps lastIn.
  induction Hl as [|log logs Hlog _ IH]; intros ps lastIn Hproto.
  { unfold countOf. simpl. lia. }
  rewrite scanLogs_cons, countOf_cons. unfold scanLog.
  destruct (type log) eqn:Hty; simpl.
  - rewrite assignIn_plain by done.
    specialize (IH ps {| own := <[employee_id log := log]> (own lastIn);
                         proto := proto lastIn |} Hproto).
    simpl in IH.
    pose proof (map_size_insert (employee_id log) log (own lastIn)) as Hsz.
    destruct (own lastIn !! employee_id log); unfold Datatypes.id in Hsz; lia.
  - rewrite lookupIn_plain by done.
    destruct (own lastIn !! employee_id log) as [e|] eqn:Hin; simpl.
    + specialize (IH (ps ++ [(Event e, log)])
                    (deleteIn lastIn (employee_id log)) Hproto).
      rewrite length_app in IH. simpl in IH.
      rewrite map_size_delete_Some in IH by done.
      assert (size (own lastIn) ≠ 0)%nat.
      { intros Hz. apply map_size_empty_inv in Hz. rewrite Hz in Hin.
        by rewrite lookup_empty in Hin. }
      lia.
    + specialize (IH ps lastIn Hproto). lia.
Qed.

(** X5: there are never more shifts than OUT events; and when no
    employee identifier names a property that every object inherits,
    there are no more shifts than IN events either, so never more than
    half as many as events. *)
Theorem calculateShifts_count logs :
  (length (calculateShifts logs) ≤ countOf OUT logs)%nat
  ∧ (plainIds logs →
     (length (calculateShifts logs) ≤ countOf IN logs
      ∧ 2 * length (calculateShifts logs) ≤ length logs)%nat).
Proof.
  rewrite calculateShifts_shiftPairs, length_fmap.
  unfold shiftPairs, reconstruct. rewrite length_reverse.
  pose proof (scanLogs_count_out (sortedLogs logs) [] emptyIn) as H1.
  rewrite (countOf_Permutation _ _ _ (sortedLogs_Permutation logs)) in H1.
  simpl in H1. split; [done|]. intros Hplain.
  pose proof (scanLogs_count_in (sortedLogs logs) [] emptyIn
                (plainIds_sortedLogs _ Hplain) eq_refl) as H2.
  rewrite (countOf_Permutation _ _ _ (sortedLogs_Permutation logs)) in H2.
  simpl in H2. rewrite map_size_empty in H2.
  pose proof (countOf_total logs). lia.
Qed.





Lemma sortedLogs_filter (P : AttendanceLog → Prop) `{∀ x, Decision (P x)} logs :
  filter P (sortedLogs logs) = sortedLogs (filter P logs).
Proof. apply (sort_filter timeOf), byTimestamp_key. Qed.

Lemma scanLogs_filter (e : string) logs st st' :
  plainIds logs →
  proto st.2 = None → proto st'.2 = None →
  st'.1 = filter (λ p, employee_id p.2 = e) st.1 →
  own st'.2 !! e = own st.2 !! e →
  (scanLogs pair (filter (λ log, employee_id log = e) logs) st').1
  = filter (λ p, employee_id p.2 = e) (scanLogs pair logs st).1.
Proof.
  intros Hl. revert st st'.
  induction Hl as [|log logs Hlog _ IH]; intros st st' Hp Hp' Hps Hm;
    [exact Hps|].
  rewrite filter_cons. destruct st as [ps m], st' as [ps' m'].
  simpl in Hp, Hp', Hps, Hm.
  destruct (decide (employee_id log = e)) as [<-|Hne].
  - rewrite !scanLogs_cons. unfold scanLog.
    rewrite !lookupIn_plain, !assignIn_plain by done. rewrite Hm.
    destruct (type log); simpl.
    + apply IH; simpl; [done..|]. by rewrite !lookup_insert_eq.
    + destruct (own m !! employee_id log) as [inLog|] eqn:Hin; simpl.
      * apply IH; simpl; [done..| |by rewrite !lookup_delete_eq].
        rewrite filter_app, filter_cons, decide_True by done. by rewrite Hps.
      * apply IH; simpl; [done..|congruence].
  - rewrite scanLogs_cons. unfold scanLog.
    rewrite lookupIn_plain, assignIn_plain by done.
    destruct (type log); simpl.
    + apply IH; simpl; [done..|]. by rewrite lookup_insert_ne.
    + destruct (own m !! employee_id log) as [inLog|]; simpl.
      * apply IH; simpl; [done..| |by rewrite lookup_delete_ne].
        rewrite filter_app, filter_cons, decide_False by done.
        by rewrite app_nil_r.
      * by apply IH.
Qed.

Lemma plainIds_filter (P : AttendanceLog → Prop) `{∀ x, Decision (P x)} logs :
  plainIds logs → plainIds (filter P logs).
Proof.
  unfold plainIds. rewrite !Forall_forall. intros Hl x Hx.
  apply Hl. by apply list_elem_of_filter in Hx as [_ ?].
Qed.

(** X7: when no employee identifier names a property that every object
    inherits, employees are reconstructed independently: the shifts
    computed from the events of one employee alone are that employee's
    shifts in the reconstruction of all events, in the same order. *)
Theorem shiftPairs_filter (e : string) logs :
  plainIds logs →
  shiftPairs (filter (λ log, employee_id log = e) logs)
  = filter (λ p, employee_id p.2 = e) (shiftPairs logs)
  ∧ calculateShifts (filter (λ log, employee_id log = e) logs)
    = uncurry mkShift <$> filter (λ p, employee_id p.2 = e) (shiftPairs logs).
Proof.
  intros Hplain.
  assert (shiftPairs (filter (λ log, employee_id log = e) logs)
          = filter (λ p, employee_id p.2 = e) (shiftPairs logs)) as Heq.
  { unfold shiftPairs, reconstruct.
    rewrite filter_reverse, <- sortedLogs_filter. f_equal.
    by apply (scanLogs_filter e (sortedLogs logs) ([], emptyIn) ([], emptyIn));
      [apply plainIds_sortedLogs|..]. }
  split; [done|]. by rewrite calculateShifts_shiftPairs, Heq.
Qed.

(** X8: events later than all events known so far do not change the
    shifts already reconstructed: they only add shifts in front, each
    closed by one of the new events, whether the new events are put
    before or after the known ones in the input. *)
Theorem calculateShifts_later_events logs new :
  (∀ a b, a ∈ logs → b ∈ new → timeOf a < timeOf b) →
  ∃ more,
    shiftPairs (new ++ logs) = more ++ shiftPairs logs
    ∧ shiftPairs (logs ++ new) = more ++ shiftPairs logs
    ∧ calculateShifts (new ++ logs)
      = (uncurry mkShift <$> more) ++ calculateShifts logs
    ∧ calculateShifts (logs ++ new)
      = (uncurry mkShift <$> more) ++ calculateShifts logs
    ∧ Forall (λ p, p.2 ∈ new) more.
Proof.
  intros Hlt.
  assert (sortedLogs (new ++ logs) = sortedLogs logs ++ sortedLogs new) as Hs1.
  { by apply (sort_app_gt timeOf), Hlt; [apply byTimestamp_key|..]. }
  assert (sortedLogs (logs ++ new) = sortedLogs logs ++ sortedLogs new) as Hs2.
  { apply (sort_app_le timeOf); [apply byTimestamp_key|].
    intros a b Ha Hb. specialize (Hlt a b Ha Hb). lia. }
  destruct (scanLogs_appends (sortedLogs new)
              (scanLogs pair (sortedLogs logs) ([], emptyIn)))
    as (more & Hmore & HF).
  exists (reverse more).
  assert (shiftPairs (new ++ logs) = reverse more ++ shiftPairs logs) as H1.
  { unfold shiftPairs, reconstruct.
    by rewrite Hs1, scanLogs_app, Hmore, reverse_app. }
  assert (shiftPairs (logs ++ new) = reverse more ++ shiftPairs logs) as H2.
  { unfold shiftPairs, reconstruct.
    by rewrite Hs2, scanLogs_app, Hmore, reverse_app. }
  split_and!; [done..| | |].
  - by rewrite !calculateShifts_shiftPairs, H1, fmap_app.
  - by rewrite !calculateShifts_shiftPairs, H2, fmap_app.
  - apply Forall_reverse. eapply Forall_impl; [exact HF|].
    intros p Hp. simpl in *. by rewrite sortedLogs_Permutation in Hp.
Qed.

(** X15: a clock-in followed, among the events of its employee in time
    order, directly by a clock-out always yields the shift of the two,
    whatever other employees do in between. *)
Theorem shiftPairs_complete logs l1 l2 l3 (y x : AttendanceLog) :
  sortedLogs logs = l1 ++ y :: l2 ++ x :: l3 →
  type y = IN → type x = OUT →
  employee_id y = employee_id x →
  Forall (λ log, employee_id log ≠ employee_id x) l2 →
  (Event y, x) ∈ shiftPairs logs ∧ mkShift (Event y) x ∈ calculateShifts logs.
Proof.
  intros Hsorted Hy Hx Hid Hl2.
  assert ((Event y, x) ∈ shiftPairs logs) as Hin.
  { unfold shiftPairs, reconstruct. rewrite elem_of_reverse, Hsorted.
    rewrite scanLogs_app, scanLogs_cons, scanLogs_app, scanLogs_cons.
    destruct (scanLogs pair l1 ([], emptyIn)) as [ps1 m1].
    assert (scanLog pair (ps1, m1) y = (ps1, assignIn m1 (employee_id y) y)) as ->.
    { unfold scanLog. by rewrite Hy. }
    pose proof (scanLogs_other _ l2 (ps1, assignIn m1 (employee_id y) y) Hl2)
      as Hm.
    destruct (scanLogs pair l2 (ps1, assignIn m1 (employee_id y) y)) as [ps2 m2].
    simpl in Hm. rewrite <- Hid, pendingIn_assign_eq in Hm.
    apply lookupIn_Event in Hm.
    assert (scanLog pair (ps2, m2) x
            = (ps2 ++ [(Event y, x)], deleteIn m2 (employee_id x))) as ->.
    { unfold scanLog. by rewrite Hx, <- Hid, Hm. }
    destruct (scanLogs_appends l3
                (ps2 ++ [(Event y, x)], deleteIn m2 (employee_id x)))
      as (more & -> & _).
    simpl. rewrite !elem_of_app. left. right. by left. }
  split; [done|]. rewrite calculateShifts_shiftPairs.
  by apply (list_elem_of_fmap_2 (uncurry mkShift) _ (Event y, x)).
Qed.

(** X9: the summary of [AdminView] shows at most six shifts, the first
    six returned, and no shift left out was completed later than a shift
    shown. *)
Theorem shownShifts_latest logs :
  (length (shownShifts logs) ≤ 6)%nat
  ∧ shownShifts logs = uncurry mkShift <$> take 6 (shiftPairs logs)
  ∧ Forall (λ p, Forall (λ q, timeOf q.2 ≤ timeOf p.2)
                   (drop 6 (shiftPairs logs)))
      (take 6 (shiftPairs logs)).
Proof.
  unfold shownShifts. split_and!.
  - rewrite length_take. lia.
  - by rewrite calculateShifts_shiftPairs, fmap_take.
  - pose proof (shiftPairs_out_sorted logs) as Hs.
    rewrite <- (take_drop 6 (shiftPairs logs)) in Hs.
    apply Forall_forall. intros p Hp. apply Forall_forall. intros q Hq.
    exact (StronglySorted_app_1_elem_of _ _ _ _ _ Hs Hp Hq).
Qed.
End ReconstructorMore.

(** * What the scan keeps for every identifier *)
Section ReconstructorEvents.
Context `{Host}.


(** After an OUT of an employee with a plain identifier no event is held
    for that employee. *)
Lemma scanLog_out_clears (st : list (InValue * AttendanceLog) * LastIn)
    (o : AttendanceLog) :
  employee_id o ∉ objectPrototypeKeys → proto st.2 = None → type o = OUT →
  pendingIn (scanLog pair st o).2 (employee_id o) = None.
Proof.
  destruct st as [ps m]. simpl. intros Hplain Hproto Hty.
  unfold scanLog. rewrite Hty, lookupIn_plain by done.
  rewrite pendingIn_plain by done.
  destruct (own m !! employee_id o) eqn:Hin; simpl; [|done].
  apply lookup_delete_eq.
Qed.

(** X18: when no employee identifier names a property that every object
    inherits, an OUT that no IN of its employee precedes since that
    employee's last OUT finds nothing in [lastIn], and the result is the
    one the scan reaches without it. *)
Theorem calculateShifts_orphan_out logs l1 l3 (x : AttendanceLog) :
  plainIds logs →
  sortedLogs logs = l1 ++ x :: l3 →
  type x = OUT →
  (Forall (λ log, employee_id log ≠ employee_id x) l1
   ∨ ∃ l1a o l1b,
       l1 = l1a ++ o :: l1b
       ∧ type o = OUT ∧ employee_id o = employee_id x
       ∧ Forall (λ log, employee_id log ≠ employee_id x) l1b) →
  lookupIn (scanLogs pair l1 ([], emptyIn)).2 (employee_id x) = None
  ∧ shiftPairs logs = reverse (scanLogs pair (l1 ++ l3) ([], emptyIn)).1
  ∧ calculateShifts logs
    = uncurry mkShift <$> reverse (scanLogs pair (l1 ++ l3) ([], emptyIn)).1.
Proof.
  intros Hplain Hsorted Hx Hbefore.
  pose proof (plainIds_sortedLogs _ Hplain) as Hps. rewrite Hsorted in Hps.
  unfold plainIds in Hps. rewrite Forall_app, Forall_cons in Hps.
  destruct Hps as (Hl1 & Hxplain & Hl3).
  assert (lookupIn (scanLogs pair l1 ([], emptyIn)).2 (employee_id x) = None)
    as Hnone.
  { destruct (scanLogs_plain l1 [] emptyIn Hl1 eq_refl) as [Hproto _];
      [constructor|].
    rewrite lookupIn_plain by done. rewrite <- pendingIn_plain by done.
    destruct Hbefore as [Hno|(l1a & o & l1b & -> & Ho & Hid & Hno)].
    - by rewrite scanLogs_other, pendingIn_empty.
    - rewrite scanLogs_app, scanLogs_cons, scanLogs_other by done.
      rewrite Forall_app, Forall_cons in Hl1. destruct Hl1 as (Hl1a & Hoplain & _).
      destruct (scanLogs_plain l1a [] emptyIn Hl1a eq_refl) as [Hproto_a _];
        [constructor|].
      rewrite <- Hid. by rewrite scanLog_out_clears. }
  assert (shiftPairs logs = reverse (scanLogs pair (l1 ++ l3) ([], emptyIn)).1)
    as Heq.
  { unfold shiftPairs, reconstruct.
    rewrite Hsorted, !scanLogs_app, scanLogs_cons. do 2 f_equal.
    destruct (scanLogs pair l1 ([], emptyIn)) as [ps m]. simpl in *.
    by rewrite Hx, Hnone. }
  split_and!; [done..|]. by rewrite calculateShifts_shiftPairs, Heq.
Qed.
End ReconstructorEvents.

(** * The CSV export *)
Section ExportFacts.
Context (numberToString : number → string).

Implicit Types (c : Ascii.ascii) (s t : string) (l : list string).

Lemma occurs_app c s t : occurs c (s +:+ t) = (occurs c s + occurs c t)%nat.
Proof. induction s as [|a s IH]; simpl; [done|]. rewrite IH. lia. Qed.

Lemma splitOn_none c s : occurs c s = 0%nat → splitOn c s = [s].
Proof.
  induction s as [|a s IH]; simpl; [done|].
  case_decide; [done|]. intros Hs. by rewrite IH.
Qed.

Lemma splitOn_app_sep c s t :
  occurs c s = 0%nat → splitOn c (s +:+ String c t) = s :: splitOn c t.
Proof.
  induction s as [|a s IH]; simpl.
  - intros _. by rewrite decide_True.
  - case_decide; [done|]. intros Hs. by rewrite IH.
Qed.

(** Splitting undoes joining when no piece holds the separator. *)
Lemma splitOn_concat c l :
  l ≠ [] → Forall (λ s, occurs c s = 0%nat) l →
  splitOn c (String.concat (String c "") l) = l.
Proof.
  intros Hne HF. induction HF as [|s l Hs HF IH]; [done|].
  destruct l as [|s' l].
  - by apply splitOn_none.
  - change (String.concat (String c "") (s :: s' :: l))
      with (s +:+ String c (String.concat (String c "") (s' :: l))).
    rewrite splitOn_app_sep by done. f_equal. by apply IH.
Qed.

Lemma occurs_concat_0 c (sep : string) l :
  occurs c sep = 0%nat → Forall (λ s, occurs c s = 0%nat) l →
  occurs c (String.concat sep l) = 0%nat.
Proof.
  intros Hsep HF. induction HF as [|s l Hs HF IH]; [done|].
  destruct l as [|s' l]; [done|].
  change (String.concat sep (s :: s' :: l))
    with (s +:+ sep +:+ String.concat sep (s' :: l)).
  by rewrite !occurs_app, Hs, Hsep, IH.
Qed.


Lemma occurs_concat c (sep : string) l :
  occurs c (String.concat sep l)
  = (sum_list (occurs c <$> l) + (length l - 1) * occurs c sep)%nat.
Proof.
  induction l as [|s l IH]; [done|].
  destruct l as [|s' l]; [simpl; lia|].
  change (String.concat sep (s :: s' :: l))
    with (s +:+ sep +:+ String.concat sep (s' :: l)).
  rewrite !occurs_app, IH. simpl. lia.
Qed.

Lemma length_splitOn c s : length (splitOn c s) = S (occurs c s).
Proof.
  induction s as [|a s IH]; simpl; [done|].
  case_decide; simpl; [by rewrite IH|].
  destruct (splitOn c s); simpl in *; lia.
Qed.

(** X13: when no value of any row contains a comma or a line feed, the
    exported text reads back, line by line and comma by comma, as the
    header followed by the values of the rows in order, a [NULL] as the
    empty string. *)
Theorem exportCsv_roundtrip (logs : list ExportLog.t) :
  Forall (plainRow numberToString) logs →
  parseCsv (exportCsv numberToString logs)
  = (cellString numberToString <$> csvHeader)
    :: ((λ log, cellString numberToString <$> csvCells log) <$> logs).
Proof.
  intros Hplain. unfold parseCsv, exportCsv.
  rewrite splitOn_concat.
  - unfold csvRows. rewrite fmap_cons. f_equal.
    rewrite <- list_fmap_compose. apply Forall_fmap_ext_1.
    eapply Forall_impl; [exact Hplain|]. intros log Hlog. cbn beta.
    unfold compose, join. change "," with (String COMMA "").
    apply splitOn_concat; [done|].
    apply Forall_fmap. eapply Forall_impl; [exact Hlog|]. by intros cell [? _].
  - done.
  - unfold csvRows. constructor; [done|].
    apply Forall_fmap. eapply Forall_impl; [exact Hplain|]. intros log Hlog.
    cbn beta. unfold compose, join. apply occurs_concat_0; [done|].
    apply Forall_fmap. eapply Forall_impl; [exact Hlog|]. by intros cell [_ ?].
Qed.

(** X14: nothing is quoted or escaped: the line of a row splits at its
    commas into six fields and one more for every comma inside a value. *)
Theorem csvRow_fields (log : ExportLog.t) :
  length (splitOn COMMA (join numberToString "," (csvCells log)))
  = (6 + sum_list (occurs COMMA ∘ cellString numberToString <$> csvCells log))%nat.
Proof.
  rewrite length_splitOn. unfold join. rewrite occurs_concat.
  rewrite <- list_fmap_compose. simpl. lia.
Qed.
End ExportFacts.

Lemma exportCsv_roundtrip_witness :
  parseCsv (exportCsv (λ _, "0") [exportRow])
  = [ ["Timestamp"; "Employee Name"; "Action"; "GPS Status"; "Latitude";
       "Longitude"];
      ["2024-03-04 09:00:00"; "John Doe"; "IN"; "OK"; ""; ""] ].
Proof.
  apply (exportCsv_roundtrip (λ _, "0") [exportRow]).
  repeat constructor.
Defined.

Lemma calculateShifts_later_events_witness :
  ∃ more,
    shiftPairs ([MoreExamples.in1800; MoreExamples.out1830] ++ logs_eight)
    = more ++ shiftPairs logs_eight
    ∧ shiftPairs (logs_eight ++ [MoreExamples.in1800; MoreExamples.out1830])
      = more ++ shiftPairs logs_eight
    ∧ calculateShifts ([MoreExamples.in1800; MoreExamples.out1830] ++ logs_eight)
      = (uncurry mkShift <$> more) ++ calculateShifts logs_eight
    ∧ calculateShifts (logs_eight ++ [MoreExamples.in1800; MoreExamples.out1830])
      = (uncurry mkShift <$> more) ++ calculateShifts logs_eight
    ∧ Forall (λ p, p.2 ∈ [MoreExamples.in1800; MoreExamples.out1830]) more.
Proof.
  apply (calculateShifts_later_events logs_eight
           [MoreExamples.in1800; MoreExamples.out1830]).
  intros a b Ha Hb. apply list_elem_of_In in Ha, Hb. simpl in Ha, Hb.
  destruct Ha as [<-|[<-|[]]], Hb as [<-|[<-|[]]]; vm_compute; reflexivity.
Defined.

Lemma shiftPairs_complete_witness :
  (Event in0900, out1700) ∈ shiftPairs logs_nested
  ∧ mkShift (Event in0900) out1700 ∈ calculateShifts logs_nested.
Proof.
  apply (shiftPairs_complete logs_nested [] [in1000_E2; out1100_E2] []
           in0900 out1700).
  - vm_compute. reflexivity.
  - reflexivity.
  - reflexivity.
  - reflexivity.
  - repeat constructor; discriminate.
Defined.

Lemma plainIds_logs_nested : plainIds logs_nested.
Proof. apply (bool_decide_unpack _). vm_compute. exact I. Qed.

Lemma calculateShifts_count_witness :
  (length (calculateShifts logs_nested) ≤ countOf IN logs_nested
   ∧ 2 * length (calculateShifts logs_nested) ≤ length logs_nested)%nat.
Proof.
  exact (proj2 (calculateShifts_count logs_nested) plainIds_logs_nested).
Defined.


Lemma shiftPairs_filter_witness :
  shiftPairs (filter (λ log, employee_id log = "E2") logs_nested)
  = filter (λ p, employee_id p.2 = "E2") (shiftPairs logs_nested)
  ∧ calculateShifts (filter (λ log, employee_id log = "E2") logs_nested)
    = uncurry mkShift
        <$> filter (λ p, employee_id p.2 = "E2") (shiftPairs logs_nested).
Proof. exact (shiftPairs_filter "E2" logs_nested plainIds_logs_nested). Defined.


Lemma calculateShifts_orphan_out_witness :
  lookupIn (scanLogs pair [in0900; out1700] ([], emptyIn)).2 "E1" = None
  ∧ shiftPairs [in0900; out1830; out1700]
    = reverse (scanLogs pair ([in0900; out1700] ++ []) ([], emptyIn)).1
  ∧ calculateShifts [in0900; out1830; out1700]
    = uncurry mkShift
        <$> reverse (scanLogs pair ([in0900; out1700] ++ []) ([], emptyIn)).1.
Proof.
  apply (calculateShifts_orphan_out [in0900; out1830; out1700]
           [in0900; out1700] [] out1830).
  - apply (bool_decide_unpack _). vm_compute. exact I.
  - vm_compute. reflexivity.
  - reflexivity.
  - right. exists [in0900], out1700, []. split_and!; [reflexivity..|constructor].
Defined.

(** * The serverless entry point *)
Section NetlifyFacts.
Context {Application Handler : Type}.
Context (createApp : nat → Application) (serverless : Application → Handler).

Lemma handlerCalls_warm (n : nat) (h : Handler) (k : nat) :
  handlerCalls createApp serverless n
    {| serverlessHandler := Some h; created := k |}
  = (replicate n h, {| serverlessHandler := Some h; created := k |}).
Proof. induction n as [|n IH]; [done|]. simpl. by rewrite IH. Qed.

(** X16: from a cold start, however many events arrive one after the
    other, [createApp] is called once, by the first, and every event is
    answered by the handler made from that one application. *)
Theorem handlerCalls_once (n : nat) :
  (handlerCalls createApp serverless n coldStart).1
  = replicate n (serverless (createApp 0%nat))
  ∧ created (handlerCalls createApp serverless n coldStart).2 = min 1 n.
Proof.
  destruct n as [|n]; [done|].
  simpl. rewrite handlerCalls_warm. done.
Qed.
End NetlifyFacts.

